(** * YuS stream cipher: keystream core

    A shallow embedding of the keystream-generation core of the YuS
    cipher (utils.cpp, sbox.cpp, linear_layer.cpp, round_key.cpp and
    yus_core.cpp) and the properties its specification states about it.

    Conventions of the embedding.
    - [mpz_class] values are [Z]; [uint32_t] and [uint8_t] loop indices
      are [nat] or [Z] inside their range (no loop here can wrap).
    - [std::vector<uint8_t>] is [list byte].
    - A C++ function that can throw returns a [result]; the two exception
      classes the code throws are told apart.
    - The methods of [YuSCipher] run in a small state monad whose state
      holds the instance and the function-local [static SBox] of
      [apply_sbox_layer], the one piece of process-wide state of the core.
    - The OpenMP loops write disjoint slots of their output and are
      modelled in index order. *)

From Stdlib Require Import ZArith Lia Znumtheory.
From Stdlib.Zmod Require Import ZmodInv.
From Stdlib.Strings Require Import Byte Ascii String.
From stdpp Require Import base list numbers gmap.

Local Open Scope Z_scope.

(** ** Exceptions *)

Inductive exn : Set :=
| invalid_argument
| runtime_error.

Inductive result (A : Type) : Type :=
| Ok (a : A)
| Throw (e : exn).

Arguments Ok {A} a.
Arguments Throw {A} e.

Definition rbind {A B} (r : result A) (k : A -> result B) : result B :=
  match r with
  | Ok a => k a
  | Throw e => Throw e
  end.

Notation "x <-r e1 ;; e2" := (rbind e1 (fun x => e2))
  (at level 100, e1 at next level, right associativity).

Fixpoint rmapM {A B} (f : A -> result B) (l : list A) : result (list B) :=
  match l with
  | [] => Ok []
  | a :: l' => b <-r f a ;; bs <-r rmapM f l' ;; Ok (b :: bs)
  end.

(** ** SHAKE128

    [RoundKeyGenerator::shake128_xof] calls OpenSSL's SHAKE128 through the
    EVP interface.  The function below is SHAKE128 as FIPS 202 defines it
    (Keccak-f[1600], rate 168 bytes, domain suffix 1111, pad10*1), so that
    the cipher can be evaluated on concrete inputs. *)

Module Keccak.

Definition rotl64 (x n : Z) : Z :=
  Z.land (Z.lor (Z.shiftl x n) (Z.shiftr x (64 - n))) (Z.ones 64).

Definition round_constants : list Z :=
  [ 0x0000000000000001; 0x0000000000008082; 0x800000000000808A;
    0x8000000080008000; 0x000000000000808B; 0x0000000080000001;
    0x8000000080008081; 0x8000000000008009; 0x000000000000008A;
    0x0000000000000088; 0x0000000080008009; 0x000000008000000A;
    0x000000008000808B; 0x800000000000008B; 0x8000000000008089;
    0x8000000000008003; 0x8000000000008002; 0x8000000000000080;
    0x000000000000800A; 0x800000008000000A; 0x8000000080008081;
    0x8000000000008080; 0x0000000080000001; 0x8000000080008008 ].

(** Rotation offsets, lane (x, y) at index x + 5y. *)
Definition rho_offsets : list Z :=
  [  0;  1; 62; 28; 27;
    36; 44;  6; 55; 20;
     3; 10; 43; 25; 39;
    41; 45; 15; 21;  8;
    18;  2; 61; 56; 14 ].

Definition lane (A : list Z) (x y : nat) : Z :=
  nth (x mod 5 + 5 * (y mod 5))%nat A 0.

Definition theta (A : list Z) : list Z :=
  let C := map (fun x => fold_left Z.lxor (map (lane A x) (seq 0 5)) 0)
               (seq 0 5) in
  let D := map (fun x => Z.lxor (nth ((x + 4) mod 5)%nat C 0)
                                (rotl64 (nth ((x + 1) mod 5)%nat C 0) 1))
               (seq 0 5) in
  map (fun i => Z.lxor (nth i A 0) (nth (i mod 5)%nat D 0)) (seq 0 25).

Definition rho_pi (A : list Z) : list Z :=
  map (fun i => let X := (i mod 5)%nat in
                let Y := (i / 5)%nat in
                let src := ((X + 3 * Y) mod 5 + 5 * X)%nat in
                rotl64 (nth src A 0) (nth src rho_offsets 0))
      (seq 0 25).

Definition chi (B : list Z) : list Z :=
  map (fun i => let x := (i mod 5)%nat in
                let y := (i / 5)%nat in
                Z.lxor (nth i B 0)
                       (Z.ldiff (lane B (x + 2) y) (lane B (x + 1) y)))
      (seq 0 25).

Definition iota (rc : Z) (A : list Z) : list Z :=
  match A with
  | [] => []
  | a :: A' => Z.lxor a rc :: A'
  end.

Definition keccak_round (A : list Z) (rc : Z) : list Z :=
  iota rc (chi (rho_pi (theta A))).

Definition keccak_f (A : list Z) : list Z :=
  fold_left keccak_round round_constants A.

Definition rate : nat := 168.

Definition pad (len : nat) : list Z :=
  let q := (rate - len mod rate)%nat in
  if (q =? 1)%nat then [0x9F]
  else 0x1F :: repeat 0 (q - 2) ++ [0x80].

Definition lane_of_bytes (bs : list Z) : Z :=
  foldr (fun b acc => Z.lor b (Z.shiftl acc 8)) 0 bs.

Definition bytes_of_lane (w : Z) : list Z :=
  map (fun i => Z.land (Z.shiftr w (8 * Z.of_nat i)) 0xFF) (seq 0 8).

Fixpoint lanes_of_block (n : nat) (bs : list Z) : list Z :=
  match n with
  | O => []
  | S n' => lane_of_bytes (take 8 bs) :: lanes_of_block n' (drop 8 bs)
  end.

Definition xor_block (A : list Z) (bs : list Z) : list Z :=
  let ls := lanes_of_block 21 bs in
  map (fun i => Z.lxor (nth i A 0) (nth i ls 0)) (seq 0 25).

Fixpoint absorb (nblocks : nat) (A : list Z) (bs : list Z) : list Z :=
  match nblocks with
  | O => A
  | S k => absorb k (keccak_f (xor_block A (take rate bs))) (drop rate bs)
  end.

Definition bytes_of_state (A : list Z) : list Z :=
  flat_map bytes_of_lane (take 21 A).

Fixpoint squeeze (nblocks : nat) (A : list Z) : list Z :=
  match nblocks with
  | O => []
  | S k => bytes_of_state A ++
           match k with
           | O => []
           | S _ => squeeze k (keccak_f A)
           end
  end.

Definition byte_of_Z (z : Z) : byte :=
  default x00 (Byte.of_N (Z.to_N z)).

Definition Z_of_byte (b : byte) : Z := Z.of_N (Byte.to_N b).

Definition shake128 (msg : list byte) (output_len : nat) : list byte :=
  let m := map Z_of_byte msg in
  let padded := m ++ pad (length m) in
  let A := absorb (length padded / rate) (repeat 0 25) padded in
  map byte_of_Z (take output_len (squeeze (output_len / rate + 1) A)).

End Keccak.

(** ** utils.cpp *)

(** [(p % 3) == 2]; [%] on [mpz_class] truncates towards zero. *)
Definition is_p_2mod3 (p : Z) : bool := Z.rem p 3 =? 2.

(** [mpz_import] with order 1 and one-byte words: most significant byte
    first. *)
Definition bytes_to_mpz (bytes : list byte) : Z :=
  fold_left (fun num b => num * 256 + Keccak.Z_of_byte b) bytes 0.

(** [mod(a, p)]: the truncated remainder, moved up by [p] when negative.
    ([mod] is a notation of Rocq, hence the name.)  GMP aborts on a zero
    divisor; every use below has [p] positive. *)
Definition mod_ (a p : Z) : Z :=
  let res := Z.rem a p in
  if res <? 0 then res + p else res.

(** ** sbox.cpp *)

Module SBox.

Record t : Set := { p_ : Z }.

Definition new (p : Z) : result t :=
  if is_p_2mod3 p then Ok {| p_ := p |} else Throw invalid_argument.

Definition apply (sb : t) (input : list Z) : result (list Z) :=
  match input with
  | [x0; x1; x2] =>
      let y0 := mod_ x0 (p_ sb) in
      let y1 := mod_ (x0 * x2 + x1) (p_ sb) in
      let y2 := mod_ (- x0 * x1 + x0 * x2 + x2) (p_ sb) in
      Ok [y0; y1; y2]
  | _ => Throw invalid_argument
  end.

(** The three nested loops of the exhaustive branch, in their order. *)
Definition all_inputs (p : Z) : list (list Z) :=
  x0 ← seqZ 0 p; x1 ← seqZ 0 p; x2 ← seqZ 0 p; [[x0; x1; x2]].

Fixpoint scan (sb : t) (inputs : list (list Z)) (outputs : gset (list Z))
  : result bool :=
  match inputs with
  | [] => Ok (bool_decide (Z.of_nat (size outputs) = p_ sb * p_ sb * p_ sb))
  | x :: rest =>
      output <-r apply sb x ;;
      if bool_decide (output ∈ outputs) then Ok false
      else scan sb rest ({[ output ]} ∪ outputs)
  end.

Definition is_permutation (sb : t) : result bool :=
  if 1000 <? p_ sb then
    let det := mod_ (1 + p_ sb + p_ sb * p_ sb) (p_ sb) in
    Ok (negb (det =? 0))
  else scan sb (all_inputs (p_ sb)) ∅.

Definition differential_uniformity (sb : t) : Z := p_ sb * p_ sb.

End SBox.

(** [apply_sbox_layer] keeps its S-box in a function-local [static]: it is
    constructed from [p] the first time control reaches the declaration and
    kept for the rest of the process.  [None] is the static before that.
    When the constructor throws, the static stays uninitialised. *)
Definition sbox_static : Set := option SBox.t.

Definition apply_sbox_layer (state : list Z) (p : Z) (st : sbox_static)
  : result (list Z) * sbox_static :=
  if negb (length state =? 36)%nat then (Throw invalid_argument, st)
  else
    match (match st with
           | Some sbox => Ok sbox
           | None => SBox.new p
           end) with
    | Throw e => (Throw e, st)
    | Ok sbox =>
        (outs <-r rmapM (fun i : nat =>
                    let start := (i * 3)%nat in
                    SBox.apply sbox [nth start state 0;
                                     nth (start + 1) state 0;
                                     nth (start + 2) state 0])
                  (seq 0 12) ;;
         Ok (flat_map (fun o => [nth 0 o 0; nth 1 o 0; nth 2 o 0]) outs),
         Some sbox)
    end.

(** ** linear_layer.cpp *)

Module LinearLayer.

Definition matrix_binary : list string :=
  [ "110111111001001111011110110001110111";
    "111110101010110101101111111010011110";
    "010011011110101011111101011111111101";
    "111110111111001001111011110110001110";
    "110111110101010110101101111111010011";
    "101010011011110101011111101011111111";
    "110111110111111001001111011110110001";
    "011110111110101010110101101111111010";
    "111101010011011110101011111101011111";
    "001110111110111111001001111011110110";
    "010011110111110101010110101101111111";
    "111111101010011011110101011111101011";
    "110001110111110111111001001111011110";
    "111010011110111110101010110101101111";
    "011111111101010011011110101011111101";
    "110110001110111110111111001001111011";
    "111111010011110111110101010110101101";
    "101011111111101010011011110101011111";
    "011110110001110111110111111001001111";
    "101111111010011110111110101010110101";
    "111101011111111101010011011110101011";
    "111011110110001110111110111111001001";
    "101101111111010011110111110101010110";
    "011111101011111111101010011011110101";
    "001111011110110001110111110111111001";
    "110101101111111010011110111110101010";
    "101011111101011111111101010011011110";
    "001001111011110110001110111110111111";
    "010110101101111111010011110111110101";
    "110101011111101011111111101010011011";
    "111001001111011110110001110111110111";
    "101010110101101111111010011110111110";
    "011110101011111101011111111101010011";
    "111111001001111011110110001110111110";
    "110101010110101101111111010011110111";
    "011011110101011111101011111111101010" ]%string.

Record t : Set := {
  matrix_ : list (list Z);
  four_russians_table_ : list (list Z)
}.

(** [matrix_[row][col]] *)
Definition entry (m : list (list Z)) (row col : nat) : Z :=
  nth col (nth row m []) 0.

Definition column_vector (m : list (list Z)) (col : nat) : Z :=
  fold_left (fun col_vec row =>
               if entry m row col =? 1 then Z.setbit col_vec (Z.of_nat row)
               else col_vec)
            (seq 0 36) 0.

Definition precompute_four_russians (m : list (list Z)) : list (list Z) :=
  let group_size := 4%nat in
  let num_groups := (36 / group_size)%nat in
  let group_mask_count := Z.shiftl 1 (Z.of_nat group_size) in
  map (fun group : nat =>
         let col_start := (group * group_size)%nat in
         map (fun mask : Z =>
                fold_left (fun sum bit =>
                             if Z.land mask (Z.shiftl 1 (Z.of_nat bit)) =? 0
                             then sum
                             else Z.lxor sum
                                    (column_vector m (col_start + bit)))
                          (seq 0 group_size) 0)
             (seqZ 0 group_mask_count))
      (seq 0 num_groups).

Definition new : result t :=
  if negb (length matrix_binary =? 36)%nat then Throw runtime_error
  else
    rows <-r rmapM (fun row_str : string =>
                if negb (String.length row_str =? 36)%nat
                then Throw runtime_error
                else Ok (map (fun c : ascii =>
                                if Ascii.eqb c "1"%char then 1 else 0)
                             (list_ascii_of_string row_str)))
              matrix_binary ;;
    Ok {| matrix_ := rows;
          four_russians_table_ := precompute_four_russians rows |}.

(** The row loop of [apply], after the size check. *)
Definition apply_rows (ll : t) (state : list Z) (p : Z) : list Z :=
  let group_size := 4%nat in
  let num_groups := 9%nat in
  map (fun row : nat =>
         fold_left (fun row_sum group =>
           let col_start := (group * group_size)%nat in
           let mask :=
             fold_left (fun mask bit =>
                          if entry (matrix_ ll) row (col_start + bit) =? 1
                          then Z.lor mask (Z.shiftl 1 (Z.of_nat bit))
                          else mask)
                       (seq 0 group_size) 0 in
           let precomputed :=
             nth (Z.to_nat mask) (nth group (four_russians_table_ ll) []) 0 in
           fold_left (fun row_sum i =>
                        if Z.testbit precomputed (Z.of_nat i)
                        then mod_ (row_sum
                                   + nth (col_start + i mod group_size)%nat
                                         state 0) p
                        else row_sum)
                     (seq 0 36) row_sum)
         (seq 0 num_groups) 0)
      (seq 0 36).

Definition apply (ll : t) (state : list Z) (p : Z) : result (list Z) :=
  if negb (length state =? 36)%nat then Throw invalid_argument
  else Ok (apply_rows ll state p).

Definition linear_branch_number (ll : t) : Z := 6.
Definition differential_branch_number (ll : t) : Z := 10.

End LinearLayer.

(** ** round_key.cpp *)

Module RoundKeyGenerator.

Record t : Set := {
  nonce_ : list byte;
  rounds_ : Z
}.

Definition new (nonce : list byte) (rounds : Z) : t :=
  {| nonce_ := nonce; rounds_ := rounds |}.

(** The EVP calls fail only when the host's OpenSSL is broken; the model
    takes the call as total. *)
Definition shake128_xof (input : list byte) (output_len : nat) : list byte :=
  Keccak.shake128 input output_len.

(** [(x >> (k * 8)) & 0xFF] for k = 0..3, stored in a [uint8_t]. *)
Definition index_bytes (x : Z) : list byte :=
  map (fun k : nat =>
         Keccak.byte_of_Z (Z.land (Z.shiftr x (Z.of_nat k * 8)) 0xFF))
      (seq 0 4).

Definition generate_round_constant (g : t) (i j : Z) (p : Z) : list Z :=
  let j_bytes := index_bytes j in
  let i_bytes := index_bytes i in
  let input := nonce_ g ++ j_bytes ++ i_bytes in
  let rc_bytes := shake128_xof input (36 * 8) in
  map (fun k : nat =>
         let elem_bytes := take ((k + 1) * 8 - k * 8) (drop (k * 8) rc_bytes) in
         let rc_k := mod_ (bytes_to_mpz elem_bytes) p in
         if rc_k =? 0 then 1 else rc_k)
      (seq 0 36).

Definition generate_round_key (g : t) (master_key round_constant : list Z)
    (p : Z) : result (list Z) :=
  if negb (length master_key =? 36)%nat || negb (length round_constant =? 36)%nat
  then Throw invalid_argument
  else Ok (map (fun k : nat =>
                  mod_ (nth k master_key 0 * nth k round_constant 0) p)
               (seq 0 36)).

End RoundKeyGenerator.

Definition add_round_key (state round_key : list Z) (p : Z)
  : result (list Z) :=
  if negb (length state =? 36)%nat || negb (length round_key =? 36)%nat
  then Throw invalid_argument
  else Ok (map (fun k : nat => mod_ (nth k state 0 + nth k round_key 0) p)
               (seq 0 36)).

(** ** yus_core.cpp *)

Inductive SecurityLevel : Set :=
| SEC80
| SEC128.

(** [static_cast<uint32_t>(level)]: the enumerators are 5 and 6. *)
Definition level_value (level : SecurityLevel) : Z :=
  match level with
  | SEC80 => 5
  | SEC128 => 6
  end.

Module YuSCipher.

Record t : Set := {
  p_ : Z;
  level_ : SecurityLevel;
  trunc_m_ : Z;
  master_key_ : list Z;
  sbox_ : SBox.t;
  linear_layer_ : LinearLayer.t;
  rk_gen_ : RoundKeyGenerator.t
}.

(** The members are initialised in declaration order, so [sbox_(p)] runs
    (and may throw) before the constructor body. *)
Definition new (p : Z) (level : SecurityLevel) (trunc_m : Z) : result t :=
  sbox <-r SBox.new p ;;
  linear_layer <-r LinearLayer.new ;;
  let rk_gen := RoundKeyGenerator.new [] (level_value level) in
  if negb (is_p_2mod3 p) then Throw invalid_argument
  else if 36 <? trunc_m then Throw invalid_argument
  else if p <? Z.shiftl 1 16 then Throw invalid_argument
  else Ok {| p_ := p; level_ := level; trunc_m_ := trunc_m;
             master_key_ := []; sbox_ := sbox;
             linear_layer_ := linear_layer; rk_gen_ := rk_gen |}.

(** What a method can read and write: its instance and the static S-box
    of [apply_sbox_layer]. *)
Record world : Set := World {
  self : t;
  sbox_layer_static : sbox_static
}.

(** A method: from the world before the call to its outcome and the world
    after it.  An exception keeps the writes made before it was thrown. *)
Definition method (A : Type) : Type := world -> result A * world.

Definition ret {A} (a : A) : method A := fun w => (Ok a, w).

Definition throw {A} (e : exn) : method A := fun w => (Throw e, w).

Definition bind {A B} (m : method A) (k : A -> method B) : method B :=
  fun w =>
    match m w with
    | (Ok a, w') => k a w'
    | (Throw e, w') => (Throw e, w')
    end.

Definition this : method t := fun w => (Ok (self w), w).

Definition set_this (c : t) : method unit :=
  fun w => (Ok tt, World c (sbox_layer_static w)).

(** A call of a function that throws or returns and touches no state. *)
Definition call {A} (r : result A) : method A := fun w => (r, w).

(** A call of [apply_sbox_layer], which owns the static S-box. *)
Definition call_sbox_layer (state : list Z) (p : Z) : method (list Z) :=
  fun w =>
    let '(r, st) := apply_sbox_layer state p (sbox_layer_static w) in
    (r, World (self w) st).

Notation "x <- e1 ;; e2" := (bind e1 (fun x => e2))
  (at level 100, e1 at next level, right associativity).

(** [for (x : xs) acc = body(x, acc);] *)
Fixpoint for_each {A B} (xs : list A) (body : A -> B -> method B) (acc : B)
  : method B :=
  match xs with
  | [] => ret acc
  | x :: xs' => acc' <- body x acc ;; for_each xs' body acc'
  end.

Definition init (master_key : list Z) (nonce : list byte) : method unit :=
  if negb (length master_key =? 36)%nat then throw invalid_argument
  else
    c <- this ;;
    _ <- set_this {| p_ := p_ c; level_ := level_ c; trunc_m_ := trunc_m_ c;
                     master_key_ := master_key; sbox_ := sbox_ c;
                     linear_layer_ := linear_layer_ c;
                     rk_gen_ := rk_gen_ c |} ;;
    c <- this ;;
    set_this {| p_ := p_ c; level_ := level_ c; trunc_m_ := trunc_m_ c;
                master_key_ := master_key_ c; sbox_ := sbox_ c;
                linear_layer_ := linear_layer_ c;
                rk_gen_ := RoundKeyGenerator.new nonce
                             (level_value (level_ c)) |}.

Definition round_transform (state round_key : list Z) : method (list Z) :=
  c <- this ;;
  sbox_out <- call_sbox_layer state (p_ c) ;;
  c <- this ;;
  linear_out <- call (LinearLayer.apply (linear_layer_ c) sbox_out (p_ c)) ;;
  c <- this ;;
  ak_out <- call (add_round_key linear_out round_key (p_ c)) ;;
  ret ak_out.

Definition truncate (state : list Z) : method (list Z) :=
  if negb (length state =? 36)%nat then throw invalid_argument
  else
    c <- this ;;
    ret (drop (Z.to_nat (trunc_m_ c)) state).

Definition key_whitening (state : list Z) (block_index : Z)
  : method (list Z) :=
  c <- this ;;
  let rc0 :=
    RoundKeyGenerator.generate_round_constant (rk_gen_ c) 0 block_index (p_ c) in
  c <- this ;;
  rk0 <- call (RoundKeyGenerator.generate_round_key (rk_gen_ c)
                 (master_key_ c) rc0 (p_ c)) ;;
  c <- this ;;
  call (add_round_key state rk0 (p_ c)).

(** The body of the round loop of block [j], at round [r]. *)
Definition round_step (j r : Z) (state : list Z) : method (list Z) :=
  c <- this ;;
  let rc :=
    RoundKeyGenerator.generate_round_constant (rk_gen_ c) r j (p_ c) in
  c <- this ;;
  rk <- call (RoundKeyGenerator.generate_round_key (rk_gen_ c)
                (master_key_ c) rc (p_ c)) ;;
  round_transform state rk.

(** The body of the block loop: block [j] appended to [keystream]. *)
Definition keystream_step (rounds : Z) (j : Z) (keystream : list Z)
  : method (list Z) :=
  c <- this ;;
  let cv := map (fun i : nat => mod_ (Z.of_nat (i + 1) + j) (p_ c))
                (seq 0 36) in
  state <- key_whitening cv j ;;
  state <- for_each (seqZ 1 rounds) (round_step j) state ;;
  c <- this ;;
  final_linear <- call (LinearLayer.apply (linear_layer_ c) state (p_ c)) ;;
  block <- truncate final_linear ;;
  ret (keystream ++ block).

(** [block_count] is a [uint32_t]: a value in [0, 2^32). *)
Definition generate_keystream (block_count : Z) : method (list Z) :=
  c <- this ;;
  if bool_decide (master_key_ c = []) then throw runtime_error
  else
    c <- this ;;
    let rounds := level_value (level_ c) in
    for_each (seqZ 0 block_count) (keystream_step rounds) [].

End YuSCipher.

(** ** The specification's words

    The operations as the specification states them, over mathematical
    residues ([Z.modulo]); the theorems below relate the code to them.

    The pipeline of a block comes twice.  [pipeline_round],
    [pipeline_block] and [pipeline_keystream] are the specification's: LP
    is the product with the matrix M and SL is the S-box layer over F_p.
    [round], [block] and [keystream] take a linear layer [ll] and an S-box
    modulus [sp] as parameters and put [LinearLayer::apply] of [ll] where
    the specification has LP and the S-box layer mod [sp] where it has SL:
    that is the pipeline as the code runs it, and nothing about the
    specification's LP or SL is proved against them. *)

Module Spec.

(** What the constructors check of the modulus.  Primality is left to the
    caller and no proof below uses it; every modulus of the data model
    (prime, p ≡ 2 mod 3, p > 2^16) satisfies this predicate. *)
Definition valid_modulus (p : Z) : Prop := p mod 3 = 2 ∧ 2 ^ 16 ≤ p.

Definition field_element (p x : Z) : Prop := 0 ≤ x < p.

(** S-box: y0 = x0, y1 = x0 x2 + x1, y2 = - x0 x1 + x0 x2 + x2. *)
Definition sbox (p x0 x1 x2 : Z) : list Z :=
  [x0 mod p; (x0 * x2 + x1) mod p; (- x0 * x1 + x0 * x2 + x2) mod p].

(** S-box layer: the S-box on each consecutive triple. *)
Fixpoint SL (p : Z) (state : list Z) : list Z :=
  match state with
  | x0 :: x1 :: x2 :: rest => sbox p x0 x1 x2 ++ SL p rest
  | _ => []
  end.

(** Row i of the plain matrix-vector product: the sum of the state_j over
    the columns j with M_ij = 1. *)
Definition row_sum (row state : list Z) : Z :=
  foldr Z.add 0 (zip_with (fun m s => if m =? 1 then s else 0) row state).

Definition matvec (m : list (list Z)) (state : list Z) (p : Z) : list Z :=
  map (fun row => row_sum row state mod p) m.

(** rk_i = K_i rc_i mod p. *)
Definition rk (K rc : list Z) (p : Z) : list Z :=
  zip_with (fun k c => (k * c) mod p) K rc.

(** AK: element-wise addition mod p. *)
Definition AK (state round_key : list Z) (p : Z) : list Z :=
  zip_with (fun s k => (s + k) mod p) state round_key.

(** The 4-byte little-endian encoding of an index. *)
Definition le32 (x : Z) : list byte :=
  [ Keccak.byte_of_Z (x mod 256);
    Keccak.byte_of_Z ((x / 2 ^ 8) mod 256);
    Keccak.byte_of_Z ((x / 2 ^ 16) mod 256);
    Keccak.byte_of_Z ((x / 2 ^ 24) mod 256) ].

(** Eight bytes read as a big-endian unsigned 64-bit integer. *)
Definition be_u64 (bs : list byte) : Z :=
  match map Keccak.Z_of_byte bs with
  | [b0; b1; b2; b3; b4; b5; b6; b7] =>
      b0 * 2 ^ 56 + b1 * 2 ^ 48 + b2 * 2 ^ 40 + b3 * 2 ^ 32
      + b4 * 2 ^ 24 + b5 * 2 ^ 16 + b6 * 2 ^ 8 + b7
  | _ => 0
  end.

(** rc(r, j, p) for the nonce N. *)
Definition rc (N : list byte) (r j p : Z) : list Z :=
  let out := Keccak.shake128 (N ++ le32 j ++ le32 r) 288 in
  map (fun k : nat =>
         let v := be_u64 (take 8 (drop (8 * k) out)) mod p in
         if bool_decide (v = 0) then 1 else v)
      (seq 0 36).

(** CV_j[i] = ((i + 1) + j) mod p. *)
Definition CV (j p : Z) : list Z :=
  map (fun i : nat => ((Z.of_nat i + 1) + j) mod p) (seq 0 36).

(** Round r of block j as the code runs it: AK of the round key onto
    [LinearLayer::apply] of [ll] on the S-box layer mod [sp].  ([sp] is the
    modulus of the S-box that [apply_sbox_layer] holds.)  The
    specification's round is [pipeline_round]. *)
Definition round (ll : LinearLayer.t) (sp : Z) (p : Z) (K : list Z)
    (N : list byte) (j : Z) (state : list Z) (r : Z) : list Z :=
  AK (LinearLayer.apply_rows ll (SL sp state) p) (rk K (rc N r j p) p) p.

(** Block j of the keystream of (p, L, m, K, N) as the code runs it:
    counter vector, whitening with rk^(0,j), the rounds r = 1..R of
    [round], [LinearLayer::apply] of [ll] once more, truncation to
    state[m..36].  The specification's block is [pipeline_block]. *)
Definition block (ll : LinearLayer.t) (sp : Z) (p : Z) (L : SecurityLevel)
    (m : Z) (K : list Z) (N : list byte) (j : Z) : list Z :=
  let whitened := AK (CV j p) (rk K (rc N 0 j p) p) p in
  let state :=
    fold_left (round ll sp p K N j) (seqZ 1 (level_value L)) whitened in
  drop (Z.to_nat m) (LinearLayer.apply_rows ll state p).

(** The blocks j = 0..n-1 of [block], in order. *)
Definition keystream (ll : LinearLayer.t) (sp : Z) (p : Z) (L : SecurityLevel)
    (m : Z) (K : list Z) (N : list byte) (n : Z) : list Z :=
  flat_map (block ll sp p L m K N) (seqZ 0 n).

(** The diffusion matrix M of 6.1, row by row; column 0 is the leftmost
    character of a row. *)
Definition M : list (list Z) :=
  map (fun row : string =>
         map (fun c : ascii => if Ascii.eqb c "1"%char then 1 else 0)
             (list_ascii_of_string row))
    [
      "110111111001001111011110110001110111";
      "111110101010110101101111111010011110";
      "010011011110101011111101011111111101";
      "111110111111001001111011110110001110";
      "110111110101010110101101111111010011";
      "101010011011110101011111101011111111";
      "110111110111111001001111011110110001";
      "011110111110101010110101101111111010";
      "111101010011011110101011111101011111";
      "001110111110111111001001111011110110";
      "010011110111110101010110101101111111";
      "111111101010011011110101011111101011";
      "110001110111110111111001001111011110";
      "111010011110111110101010110101101111";
      "011111111101010011011110101011111101";
      "110110001110111110111111001001111011";
      "111111010011110111110101010110101101";
      "101011111111101010011011110101011111";
      "011110110001110111110111111001001111";
      "101111111010011110111110101010110101";
      "111101011111111101010011011110101011";
      "111011110110001110111110111111001001";
      "101101111111010011110111110101010110";
      "011111101011111111101010011011110101";
      "001111011110110001110111110111111001";
      "110101101111111010011110111110101010";
      "101011111101011111111101010011011110";
      "001001111011110110001110111110111111";
      "010110101101111111010011110111110101";
      "110101011111101011111111101010011011";
      "111001001111011110110001110111110111";
      "101010110101101111111010011110111110";
      "011110101011111101011111111101010011";
      "111111001001111011110110001110111110";
      "110101010110101101111111010011110111";
      "011011110101011111101011111111101010" ]%string.

(** LP (4.D): state'_i is the sum of the state_j over the columns j with
    M_ij = 1, mod p. *)
Definition LP (state : list Z) (p : Z) : list Z := matvec M state p.

(** The number of rounds R: 5 for SEC80, 6 for SEC128. *)
Definition R (L : SecurityLevel) : Z :=
  match L with
  | SEC80 => 5
  | SEC128 => 6
  end.

(** Round r of block j as the specification states it (4.F, step 3):
    state <- AK (LP (SL state), rk^(r,j)), with SL the S-box layer over
    F_p and LP the product with M. *)
Definition pipeline_round (p : Z) (K : list Z) (N : list byte) (j : Z)
    (state : list Z) (r : Z) : list Z :=
  AK (LP (SL p state) p) (rk K (rc N r j p) p) p.

(** Block j as the specification states it (4.F, steps 1 to 5): the
    counter vector CV_j, whitening with rk^(0,j), the rounds r = 1..R, the
    final LP, truncation to state[m..36]. *)
Definition pipeline_block (p : Z) (L : SecurityLevel) (m : Z) (K : list Z)
    (N : list byte) (j : Z) : list Z :=
  let whitened := AK (CV j p) (rk K (rc N 0 j p) p) p in
  let state := fold_left (pipeline_round p K N j) (seqZ 1 (R L)) whitened in
  drop (Z.to_nat m) (LP state p).

(** The keystream of n blocks as the specification states it: the blocks
    j = 0..n-1 in order. *)
Definition pipeline_keystream (p : Z) (L : SecurityLevel) (m : Z)
    (K : list Z) (N : list byte) (n : Z) : list Z :=
  flat_map (pipeline_block p L m K N) (seqZ 0 n).

End Spec.

(** The S-box that [apply_sbox_layer] works with when called with [p] in
    the static state [st]. *)
Definition effective_sbox (st : sbox_static) (p : Z) : SBox.t :=
  match st with
  | Some sbox => sbox
  | None => {| SBox.p_ := p |}
  end.

(** A static S-box exists only as the result of a constructor call that
    did not throw. *)
Definition static_ok (st : sbox_static) : Prop :=
  match st with
  | Some sbox => is_p_2mod3 (SBox.p_ sbox) = true
  | None => True
  end.

(** The linear layer every instance holds. *)
Definition the_linear_layer : LinearLayer.t :=
  match LinearLayer.new with
  | Ok ll => ll
  | Throw _ => {| LinearLayer.matrix_ := [];
                  LinearLayer.four_russians_table_ := [] |}
  end.

(** The instance that [new p L m] returns. *)
Definition constructed (p : Z) (L : SecurityLevel) (m : Z) : YuSCipher.t :=
  {| YuSCipher.p_ := p; YuSCipher.level_ := L; YuSCipher.trunc_m_ := m;
     YuSCipher.master_key_ := []; YuSCipher.sbox_ := {| SBox.p_ := p |};
     YuSCipher.linear_layer_ := the_linear_layer;
     YuSCipher.rk_gen_ := RoundKeyGenerator.new [] (level_value L) |}.

(** The instance that [new p L m] followed by [init K N] leaves. *)
Definition initialised (p : Z) (L : SecurityLevel) (m : Z) (K : list Z)
    (N : list byte) : YuSCipher.t :=
  {| YuSCipher.p_ := p; YuSCipher.level_ := L; YuSCipher.trunc_m_ := m;
     YuSCipher.master_key_ := K; YuSCipher.sbox_ := {| SBox.p_ := p |};
     YuSCipher.linear_layer_ := the_linear_layer;
     YuSCipher.rk_gen_ := RoundKeyGenerator.new N (level_value L) |}.

(** The static S-box after [generate_keystream n] has run with modulus
    [p]: every block runs the S-box layer. *)
Definition static_after (g : sbox_static) (p n : Z) : sbox_static :=
  match seqZ 0 n with
  | [] => g
  | _ :: _ => Some (effective_sbox g p)
  end.

(** A method that leaves its instance as it found it. *)
Definition preserves_self {A} (f : YuSCipher.method A) : Prop :=
  ∀ w, YuSCipher.self (f w).2 = YuSCipher.self w.

(** Trial division, to certify the primes of the examples. *)
Definition is_prime_b (p : Z) : bool :=
  (1 <? p) && forallb (fun d => negb (p mod d =? 0)) (seqZ 2 (Z.sqrt p - 1)).

(** Key and nonce of the test suite (test_yus_core.cpp); the examples run
    them at the moduli 65579 and 65537, both prime and accepted by the
    constructor. *)
Definition test_key : list Z := repeat 1 36.
Definition test_nonce : list byte := [x01; x02; x03; x04].

(** The instance of the examples, in a process that has not run the S-box
    layer yet. *)
Definition test_world : YuSCipher.world :=
  YuSCipher.World (initialised 65579 SEC80 12 test_key test_nonce) None.

(** The unit vector e_0, a state of 36 field elements. *)
Definition e0 : list Z := 1 :: repeat 0 35.

(** ** Further code of the cited files

    [mpz_to_bytes] and [generate_prime] of utils.cpp, and the names that
    the further properties of the code are stated with. *)

(** [mpz_sizeinbase (num, 2)]: the number of bits of |num|, and 1 for
    zero. *)
Definition mpz_sizeinbase2 (num : Z) : Z :=
  if num =? 0 then 1 else Z.log2 (Z.abs num) + 1.

(** [mpz_export] with order 1 and one-byte words: the bytes of |num|, most
    significant first, as many as |num| needs; nothing is written for
    zero. *)
Definition mpz_export (num : Z) : list byte :=
  if num =? 0 then []
  else
    let count := Z.to_nat ((mpz_sizeinbase2 num + 7) / 8) in
    map (fun i : nat =>
           Keccak.byte_of_Z
             ((Z.abs num / 256 ^ Z.of_nat (count - 1 - i)) mod 256))
        (seq 0 count).

(** [mpz_to_bytes]: a vector of [len] zero bytes, with the export written
    from its first byte on. *)
Definition mpz_to_bytes (num : Z) : list byte :=
  let len := Z.to_nat (mpz_sizeinbase2 num / 8 + 1) in
  let written := mpz_export num in
  written ++ repeat x00 (len - length written).

(** [mpz_nextprime]: the least prime above [n].  (GMP decides primality
    with a probabilistic test; its answer is taken to be right.) *)
Definition nextprime (n q : Z) : Prop :=
  prime q ∧ n < q ∧ ∀ r, n < r < q → ¬ prime r.

(** The exit test of the do-while loop of [generate_prime], negated:
    [!is_p_2mod3(p) || p < (1 << 16)]. *)
Definition generate_prime_retry (p : Z) : bool :=
  negb (is_p_2mod3 p) || (p <? Z.shiftl 1 16).

(** The do-while loop of [generate_prime]: each turn draws r below 2^bits
    ([mpz_urandomb]) and moves to the next prime; the loop returns the
    first such prime that passes the test.  The draws are random, so the
    loop is a relation between [bits] and the primes it can return. *)
Inductive generate_prime_loop (bits : Z) : Z -> Prop :=
| generate_prime_exit (r p : Z) :
    0 ≤ r < 2 ^ bits -> nextprime r p -> generate_prime_retry p = false ->
    generate_prime_loop bits p
| generate_prime_again (r p q : Z) :
    0 ≤ r < 2 ^ bits -> nextprime r p -> generate_prime_retry p = true ->
    generate_prime_loop bits q ->
    generate_prime_loop bits q.

(** [generate_prime]: runtime_error when [RAND_bytes] fails to seed the
    generator, otherwise what the loop returns. *)
Inductive generate_prime (bits : Z) : result Z -> Prop :=
| generate_prime_seed_failure : generate_prime bits (Throw runtime_error)
| generate_prime_returns (p : Z) :
    generate_prime_loop bits p -> generate_prime bits (Ok p).

(** The input [generate_round_constant] hands to the XOF. *)
Definition round_constant_input (g : RoundKeyGenerator.t) (i j : Z)
  : list byte :=
  RoundKeyGenerator.nonce_ g
  ++ RoundKeyGenerator.index_bytes j ++ RoundKeyGenerator.index_bytes i.

(** The mask [apply] builds for [row] and [group] from the matrix. *)
Definition row_mask (m : list (list Z)) (row group : nat) : Z :=
  fold_left (fun mask bit =>
               if LinearLayer.entry m row (group * 4 + bit) =? 1
               then Z.lor mask (Z.shiftl 1 (Z.of_nat bit))
               else mask)
            (seq 0 4) 0.

(** The state indices [apply] adds up for [row], in the order of the
    loops: for each group, [col_start + i % 4] for each set bit i of the
    table entry. *)
Definition selected (ll : LinearLayer.t) (row : nat) : list nat :=
  flat_map (fun group : nat =>
              let precomputed :=
                nth (Z.to_nat (row_mask (LinearLayer.matrix_ ll) row group))
                    (nth group (LinearLayer.four_russians_table_ ll) []) 0 in
              map (fun i : nat => (group * 4 + i mod 4)%nat)
                  (filter (fun i : nat =>
                             Is_true (Z.testbit precomputed (Z.of_nat i)))
                          (seq 0 36)))
           (seq 0 9).

(** Sum of the state entries at the given indices. *)
Definition sum_at (state : list Z) (idx : list nat) : Z :=
  foldr (fun k acc => nth k state 0 + acc) 0 idx.

(** The S-box as a map on triples, without the size check. *)
Definition sbox_out (sb : SBox.t) (x : list Z) : list Z :=
  match SBox.apply sb x with
  | Ok y => y
  | Throw _ => []
  end.

(** The triples of field elements. *)
Definition field_triple (p : Z) (x : list Z) : Prop :=
  ∃ x0 x1 x2, x = [x0; x1; x2] ∧ Spec.field_element p x0
    ∧ Spec.field_element p x1 ∧ Spec.field_element p x2.

(** Whether rows [row] and [i] of the matrix share an odd number of ones
    in the four columns of [group]. *)
Definition parity (m : list (list Z)) (row group i : nat) : bool :=
  let both b :=
    (LinearLayer.entry m row (group * 4 + b) =? 1)
    && (LinearLayer.entry m i (group * 4 + b) =? 1) in
  xorb (xorb (xorb (both 0%nat) (both 1%nat)) (both 2%nat)) (both 3%nat).

(** The state indices that [apply] adds up for output [row], in the order
    of the loops, written with the matrix alone. *)
Definition coupled (m : list (list Z)) (row : nat) : list nat :=
  flat_map (fun group : nat =>
              map (fun i : nat => (group * 4 + i mod 4)%nat)
                  (filter (fun i : nat => Is_true (parity m row group i))
                          (seq 0 36)))
           (seq 0 9).

(** * Properties *)

(** ** Field arithmetic *)

Section Field.
Variable p : Z.
Hypothesis p_pos : 0 < p.

Lemma mod_spec (a : Z) : mod_ a p = a mod p.
Proof using p_pos.
  unfold mod_.
  pose proof (Z.quot_rem' a p) as Hqr.
  pose proof (Z.rem_bound_abs a p ltac:(lia)) as Habs.
  destruct (Z.ltb_spec (Z.rem a p) 0) as [Hneg | Hpos].
  - apply Z.mod_unique with (q := Z.quot a p - 1); lia.
  - apply Z.mod_unique with (q := Z.quot a p); lia.
Qed.

Lemma mod_range (a : Z) : 0 ≤ mod_ a p < p.
Proof using p_pos. rewrite mod_spec. apply Z.mod_pos_bound, p_pos. Qed.

End Field.

Lemma is_p_2mod3_pos (p : Z) : is_p_2mod3 p = true → 2 ≤ p.
Proof.
  unfold is_p_2mod3. intros H%Z.eqb_eq.
  destruct (Z.le_gt_cases 0 p) as [Hp | Hp].
  - pose proof (Z.rem_bound_pos p 3 Hp ltac:(lia)).
    destruct (Z.le_gt_cases 2 p); [done |].
    rewrite Z.rem_small in H by lia. lia.
  - pose proof (Z.rem_nonpos p 3 ltac:(lia) ltac:(lia)). lia.
Qed.

Lemma is_p_2mod3_spec (p : Z) : 0 ≤ p → is_p_2mod3 p = true ↔ p mod 3 = 2.
Proof.
  intros Hp. unfold is_p_2mod3.
  rewrite Z.rem_mod_nonneg by lia. apply Z.eqb_eq.
Qed.

Lemma valid_modulus_checks (p : Z) :
  Spec.valid_modulus p → is_p_2mod3 p = true ∧ 2 ^ 16 ≤ p.
Proof.
  intros [H3 H16]. split; [| done].
  apply is_p_2mod3_spec; [lia | done].
Qed.

(** ** The moduli of the examples are prime *)

Lemma is_prime_b_sound (p : Z) : is_prime_b p = true → prime p.
Proof.
  unfold is_prime_b. intros [Hp Hall]%andb_prop.
  apply Z.ltb_lt in Hp. rewrite forallb_forall in Hall.
  apply prime_alt. split; [done |].
  intros n Hn [q Hq].
  assert (Hsmall : ∀ d e, 1 < d → d ≤ e → p = d * e → False).
  { intros d e Hd Hde Hpe.
    assert (Hsq : d ≤ Z.sqrt p).
    { apply Z.sqrt_le_square; nia. }
    specialize (Hall d).
    rewrite <- list_elem_of_In, elem_of_seqZ in Hall.
    specialize (Hall ltac:(lia)).
    apply negb_true_iff, Z.eqb_neq in Hall. apply Hall.
    rewrite Hpe, Z.mul_comm. apply Z.mod_mul. lia. }
  assert (1 < q) by nia.
  destruct (Z.le_gt_cases n q).
  - apply (Hsmall n q); lia.
  - apply (Hsmall q n); lia.
Qed.

Lemma prime_65579 : prime 65579.
Proof. apply is_prime_b_sound. vm_compute. reflexivity. Qed.

Lemma prime_65537 : prime 65537.
Proof. apply is_prime_b_sound. vm_compute. reflexivity. Qed.

(** ** S-box *)

Lemma SBox_new_ok (p : Z) :
  is_p_2mod3 p = true → SBox.new p = Ok {| SBox.p_ := p |}.
Proof. intros H. unfold SBox.new. by rewrite H. Qed.

Lemma SBox_apply_spec (sb : SBox.t) (x0 x1 x2 : Z) :
  0 < SBox.p_ sb →
  SBox.apply sb [x0; x1; x2] = Ok (Spec.sbox (SBox.p_ sb) x0 x1 x2).
Proof.
  intros Hp. unfold SBox.apply, Spec.sbox. by rewrite !mod_spec.
Qed.

(** C6: for every modulus p the constructor accepts and every triple
    (x0, x1, x2) of field elements, the S-box built for p returns
    (x0, (x0 x2 + x1) mod p, (- x0 x1 + x0 x2 + x2) mod p); on (1, 2, 3) it
    returns (1, 5 mod p, 4 mod p). *)
Theorem sbox_apply_contract (p x0 x1 x2 : Z) :
  Spec.valid_modulus p →
  Spec.field_element p x0 → Spec.field_element p x1 →
  Spec.field_element p x2 →
  ∃ sb, SBox.new p = Ok sb
    ∧ SBox.apply sb [x0; x1; x2]
      = Ok [x0; (x0 * x2 + x1) mod p; (- x0 * x1 + x0 * x2 + x2) mod p]
    ∧ SBox.apply sb [1; 2; 3] = Ok [1; 5 mod p; 4 mod p].
Proof.
  intros [H3 H16]%valid_modulus_checks Hx0 _ _.
  exists {| SBox.p_ := p |}. split; [by apply SBox_new_ok |].
  rewrite !SBox_apply_spec by (simpl; lia).
  unfold Spec.sbox, Spec.field_element in *. simpl.
  rewrite (Z.mod_small x0), (Z.mod_small 1) by lia. done.
Qed.

Lemma sbox_apply_contract_witness :
  Spec.valid_modulus 65579 ∧
  ∃ sb, SBox.new 65579 = Ok sb
    ∧ SBox.apply sb [7; 65578; 40000]
      = Ok [7; (7 * 40000 + 65578) mod 65579;
            (- 7 * 65578 + 7 * 40000 + 40000) mod 65579]
    ∧ SBox.apply sb [1; 2; 3] = Ok [1; 5 mod 65579; 4 mod 65579].
Proof.
  split; [split; [reflexivity | lia] |].
  apply (sbox_apply_contract 65579 7 65578 40000);
    [split; [reflexivity | lia] | unfold Spec.field_element; lia ..].
Defined.

(** C7: for every modulus p the constructor accepts, [is_permutation]
    takes the determinant branch (p > 1000), where it returns whether
    (1 + p + p^2) mod p is non-zero; that residue is 1 mod p, which is not
    0, so [is_permutation] returns true. *)
Theorem sbox_is_permutation_valid (p : Z) :
  Spec.valid_modulus p →
  ∃ sb, SBox.new p = Ok sb
    ∧ 1000 < SBox.p_ sb
    ∧ SBox.is_permutation sb
      = Ok (bool_decide ((1 + p + p * p) mod p ≠ 0))
    ∧ (1 + p + p * p) mod p = 1 mod p
    ∧ 1 mod p ≠ 0
    ∧ SBox.is_permutation sb = Ok true.
Proof.
  intros [H3 H16]%valid_modulus_checks.
  exists {| SBox.p_ := p |}. split; [by apply SBox_new_ok |].
  split; [simpl; lia |].
  assert (Hdet : (1 + p + p * p) mod p = 1 mod p).
  { replace (1 + p + p * p) with (1 + (1 + p) * p) by ring.
    apply Z.mod_add. lia. }
  assert (Hone : 1 mod p ≠ 0) by (rewrite Z.mod_small; lia).
  assert (Hrun : SBox.is_permutation {| SBox.p_ := p |}
                 = Ok (bool_decide ((1 + p + p * p) mod p ≠ 0))).
  { unfold SBox.is_permutation. simpl.
    destruct (Z.ltb_spec 1000 p) as [_ | ?]; [| lia].
    rewrite mod_spec by lia. f_equal.
    destruct (Z.eqb_spec ((1 + p + p * p) mod p) 0) as [He | Hne].
    - by rewrite bool_decide_eq_false_2 by (intros Hc; by apply Hc).
    - by rewrite bool_decide_eq_true_2. }
  repeat split; try done.
  rewrite Hrun, bool_decide_eq_true_2; [done | by rewrite Hdet].
Qed.

Lemma sbox_is_permutation_valid_witness :
  Spec.valid_modulus 65579 ∧
  ∃ sb, SBox.new 65579 = Ok sb
    ∧ 1000 < SBox.p_ sb
    ∧ SBox.is_permutation sb
      = Ok (bool_decide ((1 + 65579 + 65579 * 65579) mod 65579 ≠ 0))
    ∧ (1 + 65579 + 65579 * 65579) mod 65579 = 1 mod 65579
    ∧ 1 mod 65579 ≠ 0
    ∧ SBox.is_permutation sb = Ok true.
Proof.
  split; [split; [reflexivity | lia] |].
  apply (sbox_is_permutation_valid 65579). split; [reflexivity | lia].
Defined.

(** The exhaustive branch, run on the smallest modulus the S-box
    constructor accepts. *)
Example is_permutation_exhaustive_5 :
  SBox.is_permutation {| SBox.p_ := 5 |} = Ok true.
Proof. vm_compute. reflexivity. Qed.

(** ** Linear layer *)

Lemma fold_left_invariant {A B} (P : A → Prop) (f : A → B → A)
    (l : list B) (a : A) :
  P a → (∀ a' b, P a' → P (f a' b)) → P (fold_left f l a).
Proof.
  intros Ha Hstep. revert a Ha.
  induction l as [| b l IH]; intros a Ha; simpl; [done |].
  apply IH, Hstep, Ha.
Qed.

Lemma LinearLayer_new_ok : LinearLayer.new = Ok the_linear_layer.
Proof. vm_compute. reflexivity. Qed.

Lemma apply_rows_length (ll : LinearLayer.t) (state : list Z) (p : Z) :
  length (LinearLayer.apply_rows ll state p) = 36%nat.
Proof. unfold LinearLayer.apply_rows. by rewrite length_map, length_seq. Qed.

Lemma apply_rows_range (ll : LinearLayer.t) (state : list Z) (p : Z) :
  0 < p → Forall (Spec.field_element p) (LinearLayer.apply_rows ll state p).
Proof.
  intros Hp. unfold LinearLayer.apply_rows.
  apply List.Forall_forall. intros y (row & <- & _)%in_map_iff.
  apply fold_left_invariant; [unfold Spec.field_element; lia |].
  intros acc group Hacc.
  apply fold_left_invariant; [done |].
  intros acc' i Hacc'.
  destruct (Z.testbit _ _); [| done].
  apply mod_range, Hp.
Qed.

Lemma LinearLayer_apply_ok (ll : LinearLayer.t) (state : list Z) (p : Z) :
  length state = 36%nat →
  LinearLayer.apply ll state p = Ok (LinearLayer.apply_rows ll state p).
Proof. intros Hlen. unfold LinearLayer.apply. by rewrite Hlen. Qed.

(** C9: for every modulus p the constructors accept, every component of
    the S-box on a triple of field elements lies in [0, p), and the linear
    layer maps every vector of 36 field elements to a vector of exactly 36
    entries, each in [0, p). *)
Theorem range_preservation (p : Z) :
  Spec.valid_modulus p →
  (∀ x0 x1 x2,
     Spec.field_element p x0 → Spec.field_element p x1 →
     Spec.field_element p x2 →
     ∃ sb y0 y1 y2,
       SBox.new p = Ok sb
       ∧ SBox.apply sb [x0; x1; x2] = Ok [y0; y1; y2]
       ∧ Spec.field_element p y0 ∧ Spec.field_element p y1
       ∧ Spec.field_element p y2)
  ∧ (∀ v,
       length v = 36%nat → Forall (Spec.field_element p) v →
       ∃ ll out,
         LinearLayer.new = Ok ll
         ∧ LinearLayer.apply ll v p = Ok out
         ∧ length out = 36%nat
         ∧ Forall (Spec.field_element p) out).
Proof.
  intros [H3 H16]%valid_modulus_checks.
  assert (Hp : 0 < p) by lia.
  split.
  - intros x0 x1 x2 _ _ _.
    exists {| SBox.p_ := p |}. do 3 eexists.
    split; [by apply SBox_new_ok |].
    split; [reflexivity |].
    simpl. repeat split; apply mod_range, Hp.
  - intros v Hlen _.
    exists the_linear_layer, (LinearLayer.apply_rows the_linear_layer v p).
    split; [apply LinearLayer_new_ok |].
    split; [by apply LinearLayer_apply_ok |].
    split; [apply apply_rows_length | by apply apply_rows_range].
Qed.

Lemma range_preservation_witness :
  Spec.valid_modulus 65579 ∧
  (∃ sb y0 y1 y2,
     SBox.new 65579 = Ok sb
     ∧ SBox.apply sb [7; 65578; 40000] = Ok [y0; y1; y2]
     ∧ Spec.field_element 65579 y0 ∧ Spec.field_element 65579 y1
     ∧ Spec.field_element 65579 y2)
  ∧ ∃ ll out,
      LinearLayer.new = Ok ll
      ∧ LinearLayer.apply ll (map Z.of_nat (seq 1 36)) 65579 = Ok out
      ∧ length out = 36%nat
      ∧ Forall (Spec.field_element 65579) out.
Proof.
  assert (Hv : Spec.valid_modulus 65579) by (split; [reflexivity | lia]).
  split; [exact Hv |]. split.
  - apply (proj1 (range_preservation 65579 Hv)); unfold Spec.field_element; lia.
  - apply (proj2 (range_preservation 65579 Hv)); [reflexivity |].
    repeat constructor; unfold Spec.field_element; simpl; lia.
Defined.

(** C1, at the state e_0 and the prime 65579: [LinearLayer::apply] does not
    return the matrix-vector product.  The product is column 0 of M; the
    code returns, in row i, the number of rows r ≡ 0 (mod 4) at which the
    columns that row i selects in group 0 have an odd number of ones. *)
Theorem linear_layer_differs_from_matvec :
  prime 65579 ∧ length e0 = 36%nat ∧ Forall (Spec.field_element 65579) e0 ∧
  ∃ ll,
    LinearLayer.new = Ok ll
    ∧ LinearLayer.apply ll e0 65579
      = Ok [6; 3; 8; 3; 6; 5; 6; 5; 3; 3; 8; 3; 2; 5; 5; 6; 3; 5;
            5; 5; 3; 5; 5; 5; 3; 6; 5; 5; 2; 6; 5; 5; 5; 3; 6; 5]
    ∧ Spec.matvec (LinearLayer.matrix_ ll) e0 65579
      = [1; 1; 0; 1; 1; 1; 1; 0; 1; 0; 0; 1; 1; 1; 0; 1; 1; 1;
         0; 1; 1; 1; 1; 0; 0; 1; 1; 0; 0; 1; 1; 1; 0; 1; 1; 0]
    ∧ LinearLayer.apply ll e0 65579
      ≠ Ok (Spec.matvec (LinearLayer.matrix_ ll) e0 65579).
Proof.
  split; [apply prime_65579 |].
  split; [reflexivity |].
  split; [repeat constructor; unfold Spec.field_element; simpl; lia |].
  exists the_linear_layer.
  split; [apply LinearLayer_new_ok |].
  split; [vm_compute; reflexivity |].
  split; [vm_compute; reflexivity |].
  vm_compute. discriminate.
Qed.

(** ** SHAKE128 *)

(** The digest of the empty message (FIPS 202 test vector). *)
Example shake128_empty :
  map Keccak.Z_of_byte (Keccak.shake128 [] 32)
  = [0x7f; 0x9c; 0x2b; 0xa4; 0xe8; 0x8f; 0x82; 0x7d;
     0x61; 0x60; 0x45; 0x50; 0x76; 0x05; 0x85; 0x3e;
     0xd7; 0x3b; 0x80; 0x93; 0xf6; 0xef; 0xbc; 0x88;
     0xeb; 0x1a; 0x6e; 0xac; 0xfa; 0x66; 0xef; 0x26].
Proof. vm_compute. reflexivity. Qed.

Lemma keccak_round_length (A : list Z) (rc : Z) :
  length (Keccak.keccak_round A rc) = 25%nat.
Proof.
  unfold Keccak.keccak_round, Keccak.chi.
  change (seq 0 25) with (0%nat :: seq 1 24).
  cbn [map Keccak.iota length]. by rewrite length_map, length_seq.
Qed.

Lemma keccak_f_length (A : list Z) : length (Keccak.keccak_f A) = 25%nat.
Proof.
  unfold Keccak.keccak_f.
  change Keccak.round_constants
    with (take 23 Keccak.round_constants ++ [0x8000000080008008]).
  rewrite fold_left_app. cbn [fold_left]. apply keccak_round_length.
Qed.

Lemma bytes_of_state_length (A : list Z) :
  length A = 25%nat → length (Keccak.bytes_of_state A) = 168%nat.
Proof.
  intros HA. unfold Keccak.bytes_of_state.
  do 25 (destruct A as [| ? A]; [discriminate |]).
  reflexivity.
Qed.

Lemma squeeze_length (k : nat) (A : list Z) :
  length A = 25%nat →
  length (Keccak.squeeze (S k) A) = (168 * S k)%nat.
Proof.
  revert A. induction k as [| k IH]; intros A HA.
  - cbn [Keccak.squeeze]. rewrite length_app, bytes_of_state_length by done.
    reflexivity.
  - change (Keccak.squeeze (S (S k)) A)
      with (Keccak.bytes_of_state A
            ++ Keccak.squeeze (S k) (Keccak.keccak_f A)).
    rewrite length_app, bytes_of_state_length, IH
      by (done || apply keccak_f_length).
    lia.
Qed.

Lemma absorb_length (k : nat) (A bs : list Z) :
  length A = 25%nat → length (Keccak.absorb k A bs) = 25%nat.
Proof.
  revert A bs. induction k as [| k IH]; intros A bs HA; simpl; [done |].
  apply IH, keccak_f_length.
Qed.

Lemma shake128_length (msg : list byte) (n : nat) :
  length (Keccak.shake128 msg n) = n.
Proof.
  unfold Keccak.shake128.
  rewrite length_map, length_take, Nat.add_1_r, squeeze_length
    by (apply absorb_length, repeat_length).
  unfold Keccak.rate.
  pose proof (Nat.div_mod n 168 ltac:(lia)).
  pose proof (Nat.mod_upper_bound n 168 ltac:(lia)).
  lia.
Qed.

(** ** Round constants *)

Lemma Z_of_byte_range (b : byte) : 0 ≤ Keccak.Z_of_byte b < 256.
Proof.
  unfold Keccak.Z_of_byte. pose proof (Byte.to_N_bounded b). lia.
Qed.

Lemma index_bytes_le32 (x : Z) :
  RoundKeyGenerator.index_bytes x = Spec.le32 x.
Proof.
  unfold RoundKeyGenerator.index_bytes, Spec.le32.
  cbn [seq map].
  change 255 with (Z.ones 8).
  rewrite !Z.land_ones, !Z.shiftr_div_pow2 by lia.
  change (2 ^ (Z.of_nat 0 * 8)) with 1. rewrite Z.div_1_r.
  reflexivity.
Qed.

Lemma bytes_to_mpz_be_u64 (bs : list byte) :
  length bs = 8%nat → bytes_to_mpz bs = Spec.be_u64 bs.
Proof.
  intros Hlen.
  do 8 (destruct bs as [| ? bs]; [discriminate |]).
  destruct bs; [| discriminate].
  unfold bytes_to_mpz, Spec.be_u64. cbn [fold_left map]. ring.
Qed.

Lemma be_u64_range (bs : list byte) : 0 ≤ Spec.be_u64 bs < 2 ^ 64.
Proof.
  unfold Spec.be_u64.
  destruct bs as [| b0 [| b1 [| b2 [| b3 [| b4 [| b5 [| b6 [| b7 [| ? ?]]]]]]]]];
    cbn [map]; try lia.
  pose proof (Z_of_byte_range b0). pose proof (Z_of_byte_range b1).
  pose proof (Z_of_byte_range b2). pose proof (Z_of_byte_range b3).
  pose proof (Z_of_byte_range b4). pose proof (Z_of_byte_range b5).
  pose proof (Z_of_byte_range b6). pose proof (Z_of_byte_range b7).
  lia.
Qed.

Lemma round_constant_slice (out : list byte) (k : nat) :
  length out = 288%nat → (k < 36)%nat →
  take ((k + 1) * 8 - k * 8) (drop (k * 8) out) = take 8 (drop (8 * k) out)
  ∧ length (take 8 (drop (8 * k) out)) = 8%nat.
Proof.
  intros Hout Hk.
  replace ((k + 1) * 8 - k * 8)%nat with 8%nat by lia.
  replace (k * 8)%nat with (8 * k)%nat by lia.
  split; [done |]. rewrite length_take, length_drop. lia.
Qed.

Lemma generate_round_constant_length (g : RoundKeyGenerator.t) (r j p : Z) :
  length (RoundKeyGenerator.generate_round_constant g r j p) = 36%nat.
Proof.
  unfold RoundKeyGenerator.generate_round_constant.
  by rewrite length_map, length_seq.
Qed.

Lemma generate_round_constant_spec (g : RoundKeyGenerator.t) (r j p : Z) :
  0 < p →
  RoundKeyGenerator.generate_round_constant g r j p
  = Spec.rc (RoundKeyGenerator.nonce_ g) r j p.
Proof.
  intros Hp.
  unfold RoundKeyGenerator.generate_round_constant, Spec.rc,
    RoundKeyGenerator.shake128_xof.
  rewrite !index_bytes_le32.
  change (36 * 8)%nat with 288%nat.
  apply map_ext_in. intros k Hk%in_seq.
  destruct (round_constant_slice
              (Keccak.shake128
                 (RoundKeyGenerator.nonce_ g ++ Spec.le32 j ++ Spec.le32 r) 288)
              k) as [-> Hlen]; [apply shake128_length | lia |].
  rewrite mod_spec, bytes_to_mpz_be_u64 by done.
  destruct (Z.eqb_spec (Spec.be_u64
      (take 8 (drop (8 * k)
         (Keccak.shake128
            (RoundKeyGenerator.nonce_ g ++ Spec.le32 j ++ Spec.le32 r) 288)))
      mod p) 0) as [He | Hne].
  - by rewrite bool_decide_eq_true_2.
  - by rewrite bool_decide_eq_false_2.
Qed.

Lemma rc_length (N : list byte) (r j p : Z) :
  length (Spec.rc N r j p) = 36%nat.
Proof. unfold Spec.rc. by rewrite length_map, length_seq. Qed.

Lemma rc_nonzero_range (N : list byte) (r j p : Z) :
  1 < p → Forall (λ c, 0 < c < p) (Spec.rc N r j p).
Proof.
  intros Hp. unfold Spec.rc.
  apply List.Forall_forall. intros c (k & <- & _)%in_map_iff.
  cbv zeta.
  case_bool_decide as Hz; [lia |].
  match goal with |- 0 < ?v mod p < p =>
    pose proof (Z.mod_pos_bound v p ltac:(lia)) end.
  lia.
Qed.

(** C5: for every modulus p the constructor accepts, every nonce and all
    32-bit indices r and j, [generate_round_constant] returns the 36
    elements obtained from SHAKE128 (N ‖ LE32 j ‖ LE32 r) squeezed to 288
    bytes, each 8-byte slice read as a big-endian unsigned 64-bit integer
    (a value below 2^64), reduced mod p, with 0 replaced by 1; all 36 are
    non-zero and below p. *)
Theorem round_constant_contract (g : RoundKeyGenerator.t) (r j p : Z) :
  Spec.valid_modulus p → 0 ≤ r < 2 ^ 32 → 0 ≤ j < 2 ^ 32 →
  RoundKeyGenerator.generate_round_constant g r j p
  = Spec.rc (RoundKeyGenerator.nonce_ g) r j p
  ∧ length (RoundKeyGenerator.generate_round_constant g r j p) = 36%nat
  ∧ Forall (λ c, c ≠ 0 ∧ 0 ≤ c < p)
           (RoundKeyGenerator.generate_round_constant g r j p)
  ∧ length (Keccak.shake128
              (RoundKeyGenerator.nonce_ g ++ Spec.le32 j ++ Spec.le32 r) 288)
    = 288%nat
  ∧ ∀ bs, 0 ≤ Spec.be_u64 bs < 2 ^ 64.
Proof.
  intros [H3 H16] _ _.
  split; [apply generate_round_constant_spec; lia |].
  split; [apply generate_round_constant_length |].
  split; [| split; [apply shake128_length | apply be_u64_range]].
  rewrite generate_round_constant_spec by lia.
  eapply Forall_impl; [apply rc_nonzero_range; lia |].
  simpl. intros c Hc. lia.
Qed.

Lemma round_constant_contract_witness :
  Spec.valid_modulus 65579 ∧
  let g := RoundKeyGenerator.new test_nonce 5 in
  RoundKeyGenerator.generate_round_constant g 1 0 65579
  = Spec.rc (RoundKeyGenerator.nonce_ g) 1 0 65579
  ∧ length (RoundKeyGenerator.generate_round_constant g 1 0 65579) = 36%nat
  ∧ Forall (λ c, c ≠ 0 ∧ 0 ≤ c < 65579)
           (RoundKeyGenerator.generate_round_constant g 1 0 65579)
  ∧ length (Keccak.shake128
              (RoundKeyGenerator.nonce_ g ++ Spec.le32 0 ++ Spec.le32 1) 288)
    = 288%nat
  ∧ ∀ bs, 0 ≤ Spec.be_u64 bs < 2 ^ 64.
Proof.
  split; [split; [reflexivity | lia] |].
  apply (round_constant_contract
           (RoundKeyGenerator.new test_nonce 5) 1 0 65579);
    [split; [reflexivity | lia] | lia | lia].
Defined.

(** The first whitening constants of block 0 for the test nonce. *)
Example round_constant_test_nonce :
  take 4 (RoundKeyGenerator.generate_round_constant
            (RoundKeyGenerator.new test_nonce 5) 0 0 65579)
  = [39658; 33050; 57727; 54335].
Proof. vm_compute. reflexivity. Qed.

(** ** Vectors of 36 elements *)

Ltac explode36 l H :=
  do 36 (destruct l as [| ? l]; [discriminate H |]);
  destruct l; [clear H | discriminate H].

Lemma map_nth_zip_with {A B C} (f : A → B → C) (a : list A) (b : list B)
    (da : A) (db : B) :
  length a = length b →
  map (fun k => f (nth k a da) (nth k b db)) (seq 0 (length a))
  = zip_with f a b.
Proof.
  revert b. induction a as [| x a IH]; intros [| y b] Hlen; try discriminate.
  - reflexivity.
  - cbn [length seq map zip_with nth]. f_equal.
    rewrite <- seq_shift, map_map. cbn [nth].
    apply IH. by injection Hlen.
Qed.

Section Vectors.
Variable p : Z.
Hypothesis p_pos : 0 < p.

Lemma generate_round_key_ok (g : RoundKeyGenerator.t) (K rc : list Z) :
  length K = 36%nat → length rc = 36%nat →
  RoundKeyGenerator.generate_round_key g K rc p = Ok (Spec.rk K rc p).
Proof using p_pos.
  intros HK Hrc. unfold RoundKeyGenerator.generate_round_key, Spec.rk.
  rewrite HK, Hrc. cbn [Nat.eqb negb orb]. f_equal.
  rewrite <- (map_nth_zip_with _ K rc 0 0), HK by congruence.
  apply map_ext. intros k. apply mod_spec, p_pos.
Qed.

Lemma add_round_key_ok (state rk : list Z) :
  length state = 36%nat → length rk = 36%nat →
  add_round_key state rk p = Ok (Spec.AK state rk p).
Proof using p_pos.
  intros Hs Hrk. unfold add_round_key, Spec.AK.
  rewrite Hs, Hrk. cbn [Nat.eqb negb orb]. f_equal.
  rewrite <- (map_nth_zip_with _ state rk 0 0), Hs by congruence.
  apply map_ext. intros k. apply mod_spec, p_pos.
Qed.

Lemma rk_length (K rc : list Z) :
  length K = 36%nat → length rc = 36%nat → length (Spec.rk K rc p) = 36%nat.
Proof. intros HK Hrc. unfold Spec.rk. rewrite length_zip_with. lia. Qed.

Lemma AK_length (state rk : list Z) :
  length state = 36%nat → length rk = 36%nat →
  length (Spec.AK state rk p) = 36%nat.
Proof. intros Hs Hrk. unfold Spec.AK. rewrite length_zip_with. lia. Qed.

Lemma SL_length (state : list Z) :
  length state = 36%nat → length (Spec.SL p state) = 36%nat.
Proof. intros H. explode36 state H. reflexivity. Qed.

Lemma CV_code (j : Z) :
  map (fun i : nat => mod_ (Z.of_nat (i + 1) + j) p) (seq 0 36) = Spec.CV j p.
Proof using p_pos.
  unfold Spec.CV. apply map_ext. intros i.
  rewrite mod_spec by done. f_equal. lia.
Qed.

Lemma CV_length (j : Z) : length (Spec.CV j p) = 36%nat.
Proof. unfold Spec.CV. by rewrite length_map, length_seq. Qed.

End Vectors.

(** The worked examples of the specification: AK ([1]x36, [2]x36) is
    [3]x36, and the round key of the all-ones master key is the round
    constant. *)
Example add_round_key_ones :
  add_round_key (repeat 1 36) (repeat 2 36) 65579 = Ok (repeat 3 36).
Proof. vm_compute. reflexivity. Qed.

Lemma round_key_of_ones (g : RoundKeyGenerator.t) (rc : list Z) (p : Z) :
  0 < p → length rc = 36%nat → Forall (Spec.field_element p) rc →
  RoundKeyGenerator.generate_round_key g (repeat 1 36) rc p = Ok rc.
Proof.
  intros Hp Hlen Hrc.
  rewrite generate_round_key_ok by done. f_equal.
  explode36 rc Hlen. unfold Spec.rk. cbn [repeat zip_with].
  repeat match goal with
         | H : Forall _ (_ :: _) |- _ => apply Forall_cons in H as [? H]
         end.
  unfold Spec.field_element in *.
  rewrite !Z.mul_1_l, !Z.mod_small by done. reflexivity.
Qed.

Lemma effective_sbox_pos (g : sbox_static) (p : Z) :
  is_p_2mod3 p = true → static_ok g → 0 < SBox.p_ (effective_sbox g p).
Proof.
  intros Hp Hg. destruct g as [sb |]; cbn [effective_sbox SBox.p_].
  - apply is_p_2mod3_pos in Hg. lia.
  - apply is_p_2mod3_pos in Hp. lia.
Qed.

Lemma static_ok_effective (g : sbox_static) (p : Z) :
  is_p_2mod3 p = true → static_ok g → static_ok (Some (effective_sbox g p)).
Proof. intros Hp Hg. destruct g as [sb |]; [exact Hg | exact Hp]. Qed.

Lemma apply_sbox_layer_ok (state : list Z) (p : Z) (g : sbox_static) :
  length state = 36%nat → is_p_2mod3 p = true → static_ok g →
  apply_sbox_layer state p g
  = (Ok (Spec.SL (SBox.p_ (effective_sbox g p)) state),
     Some (effective_sbox g p)).
Proof.
  intros Hlen Hp Hg.
  pose proof (effective_sbox_pos g p Hp Hg) as Hpos.
  unfold apply_sbox_layer. rewrite Hlen. cbn [Nat.eqb negb].
  replace (match g with Some sbox => Ok sbox | None => SBox.new p end)
    with (Ok (effective_sbox g p))
    by (destruct g; [done | by rewrite SBox_new_ok]).
  generalize dependent (effective_sbox g p). intros sb Hpos.
  explode36 state Hlen.
  cbn [seq rmapM rbind Nat.mul Nat.add nth].
  rewrite !SBox_apply_spec by done.
  reflexivity.
Qed.

(** ** Running the methods of an initialised instance *)

Import YuSCipher.

Lemma bind_this {B} (k : t → method B) (w : world) :
  bind this k w = k (self w) w.
Proof. reflexivity. Qed.

Lemma bind_call_ok {A B} (a : A) (k : A → method B) (w : world) :
  bind (call (Ok a)) k w = k a w.
Proof. reflexivity. Qed.

Lemma bind_ok {A B} (f : method A) (k : A → method B) (w w' : world) (a : A) :
  f w = (Ok a, w') → bind f k w = k a w'.
Proof. intros H. unfold bind. by rewrite H. Qed.

Lemma checked_pos (p : Z) : is_p_2mod3 p = true → 0 < p.
Proof. intros H%is_p_2mod3_pos. lia. Qed.

Section Initialised.
Variables (p : Z) (L : SecurityLevel) (m : Z) (K : list Z) (N : list byte).
Hypothesis p_checked : is_p_2mod3 p = true.
Hypothesis m_range : 0 ≤ m ≤ 36.
Hypothesis K_length : length K = 36%nat.

Local Abbreviation c := (initialised p L m K N).
Local Abbreviation ll := the_linear_layer.

Lemma key_whitening_run (cv : list Z) (j : Z) (g : sbox_static) :
  length cv = 36%nat →
  key_whitening cv j (World c g)
  = (Ok (Spec.AK cv (Spec.rk K (Spec.rc N 0 j p) p) p), World c g).
Proof using All.
  intros Hcv. pose proof (checked_pos p p_checked) as Hp.
  unfold key_whitening.
  rewrite bind_this. cbn [self initialised p_ rk_gen_ master_key_].
  rewrite bind_this. cbn [self initialised p_ rk_gen_ master_key_].
  rewrite generate_round_constant_spec by done.
  cbn [RoundKeyGenerator.new RoundKeyGenerator.nonce_].
  rewrite generate_round_key_ok by (done || apply rc_length).
  rewrite bind_call_ok, bind_this.
  cbn [self initialised p_].
  rewrite add_round_key_ok by (done || by apply rk_length, rc_length).
  reflexivity.
Qed.

Lemma round_transform_run (state rk : list Z) (g : sbox_static) :
  length state = 36%nat → length rk = 36%nat → static_ok g →
  round_transform state rk (World c g)
  = (Ok (Spec.AK (LinearLayer.apply_rows ll
                    (Spec.SL (SBox.p_ (effective_sbox g p)) state) p) rk p),
     World c (Some (effective_sbox g p))).
Proof using All.
  intros Hs Hrk Hg. pose proof (checked_pos p p_checked) as Hp.
  unfold round_transform.
  rewrite bind_this. cbn [self initialised p_].
  erewrite bind_ok; cycle 1.
  { unfold call_sbox_layer. cbn [self sbox_layer_static].
    rewrite apply_sbox_layer_ok by done. reflexivity. }
  rewrite bind_this. cbn [self initialised p_ linear_layer_].
  rewrite LinearLayer_apply_ok by (apply SL_length, Hs).
  rewrite bind_call_ok, bind_this. cbn [self initialised p_].
  rewrite add_round_key_ok by (done || apply apply_rows_length).
  reflexivity.
Qed.

Lemma round_length (sp j : Z) (state : list Z) (r : Z) :
  length (Spec.round ll sp p K N j state r) = 36%nat.
Proof using All.
  apply AK_length; [apply apply_rows_length | by apply rk_length, rc_length].
Qed.

Lemma round_step_run (j r : Z) (state : list Z) (g : sbox_static) :
  length state = 36%nat → static_ok g →
  round_step j r state (World c g)
  = (Ok (Spec.round ll (SBox.p_ (effective_sbox g p)) p K N j state r),
     World c (Some (effective_sbox g p))).
Proof using All.
  intros Hs Hg. pose proof (checked_pos p p_checked) as Hp.
  unfold round_step.
  rewrite bind_this. cbn [self initialised p_ rk_gen_ master_key_].
  rewrite bind_this. cbn [self initialised p_ rk_gen_ master_key_].
  rewrite generate_round_constant_spec by done.
  cbn [RoundKeyGenerator.new RoundKeyGenerator.nonce_].
  rewrite generate_round_key_ok by (done || apply rc_length).
  rewrite bind_call_ok.
  apply round_transform_run; [done | by apply rk_length, rc_length | done].
Qed.

(** The round loop, by induction on the rounds still to run. *)
Lemma rounds_run (j : Z) (rs : list Z) (state : list Z) (g : sbox_static) :
  length state = 36%nat → static_ok g →
  for_each rs (round_step j) state (World c g)
  = (Ok (fold_left (Spec.round ll (SBox.p_ (effective_sbox g p)) p K N j)
           rs state),
     World c (match rs with
              | [] => g
              | _ :: _ => Some (effective_sbox g p)
              end)).
Proof using All.
  revert state g. induction rs as [| r rs IH]; intros state g Hs Hg.
  - reflexivity.
  - cbn [for_each fold_left].
    erewrite bind_ok by (by apply round_step_run).
    rewrite IH by (apply round_length || by apply static_ok_effective).
    cbn [effective_sbox]. by destruct rs.
Qed.

Lemma keystream_step_run (j : Z) (keystream : list Z) (g : sbox_static) :
  static_ok g →
  keystream_step (level_value L) j keystream (World c g)
  = (Ok (keystream
         ++ Spec.block ll (SBox.p_ (effective_sbox g p)) p L m K N j),
     World c (Some (effective_sbox g p))).
Proof using All.
  intros Hg. pose proof (checked_pos p p_checked) as Hp.
  assert (Hw : length (Spec.AK (Spec.CV j p)
                         (Spec.rk K (Spec.rc N 0 j p) p) p) = 36%nat).
  { by apply AK_length; [apply CV_length | apply rk_length, rc_length]. }
  unfold keystream_step.
  rewrite bind_this. cbn [self initialised p_].
  rewrite CV_code by done.
  erewrite bind_ok by apply key_whitening_run, CV_length.
  erewrite bind_ok by (by apply rounds_run).
  replace (match seqZ 1 (level_value L) with
           | [] => g
           | _ :: _ => Some (effective_sbox g p)
           end) with (Some (effective_sbox g p)) by (by destruct L).
  cbv beta. rewrite bind_this. cbn [self initialised p_ linear_layer_].
  rewrite LinearLayer_apply_ok; cycle 1.
  { apply fold_left_invariant; [done |]. intros. apply round_length. }
  rewrite bind_call_ok.
  unfold truncate. rewrite apply_rows_length. cbn [Nat.eqb negb].
  cbn [bind this ret self initialised trunc_m_].
  reflexivity.
Qed.

(** The block loop, by induction on the blocks still to produce. *)
Lemma blocks_run (js : list Z) (keystream : list Z) (g : sbox_static) :
  static_ok g →
  for_each js (keystream_step (level_value L)) keystream (World c g)
  = (Ok (keystream
         ++ flat_map (Spec.block ll (SBox.p_ (effective_sbox g p)) p L m K N)
              js),
     World c (match js with
              | [] => g
              | _ :: _ => Some (effective_sbox g p)
              end)).
Proof using All.
  revert keystream g. induction js as [| j js IH]; intros keystream g Hg.
  - cbn [for_each flat_map]. by rewrite app_nil_r.
  - cbn [for_each flat_map].
    erewrite bind_ok by (by apply keystream_step_run).
    rewrite IH by (by apply static_ok_effective).
    cbn [effective_sbox]. rewrite <- app_assoc. by destruct js.
Qed.

Lemma generate_keystream_run (n : Z) (g : sbox_static) :
  static_ok g →
  generate_keystream n (World c g)
  = (Ok (Spec.keystream ll (SBox.p_ (effective_sbox g p)) p L m K N n),
     World c (static_after g p n)).
Proof using All.
  intros Hg. unfold generate_keystream.
  rewrite bind_this. cbn [self initialised master_key_].
  rewrite bool_decide_eq_false_2 by (by destruct K).
  rewrite bind_this. cbn [self initialised level_].
  by rewrite blocks_run.
Qed.

Lemma static_after_ok (g : sbox_static) (n : Z) :
  static_ok g → static_ok (static_after g p n).
Proof using All.
  intros Hg. unfold static_after.
  destruct (seqZ 0 n); [done | by apply static_ok_effective].
Qed.

Lemma static_after_effective (g : sbox_static) (n : Z) :
  effective_sbox (static_after g p n) p = effective_sbox g p.
Proof using All. unfold static_after. by destruct (seqZ 0 n). Qed.

(** A second call works with the S-box of the first and starts again at
    block 0. *)
Lemma generate_keystream_again (n1 n2 : Z) (g : sbox_static) :
  static_ok g →
  generate_keystream n2 (World c (static_after g p n1))
  = (Ok (Spec.keystream ll (SBox.p_ (effective_sbox g p)) p L m K N n2),
     World c (static_after (static_after g p n1) p n2)).
Proof using All.
  intros Hg.
  rewrite generate_keystream_run by (by apply static_after_ok).
  by rewrite static_after_effective.
Qed.

Lemma block_length (sp j : Z) :
  length (Spec.block ll sp p L m K N j) = Z.to_nat (36 - m).
Proof using All.
  unfold Spec.block. rewrite length_drop, apply_rows_length. lia.
Qed.

Lemma keystream_length (sp n : Z) :
  0 ≤ n →
  Z.of_nat (length (Spec.keystream ll sp p L m K N n)) = n * (36 - m).
Proof using All.
  intros Hn. unfold Spec.keystream.
  assert (Hlen : ∀ js,
    length (flat_map (Spec.block ll sp p L m K N) js)
    = (length js * Z.to_nat (36 - m))%nat).
  { induction js as [| j js IH]; [done |].
    cbn [flat_map length]. rewrite length_app, block_length, IH. lia. }
  rewrite Hlen, length_seqZ, Nat2Z.inj_mul, !Z2Nat.id by lia.
  reflexivity.
Qed.

End Initialised.

Lemma new_ok (p : Z) (L : SecurityLevel) (m : Z) :
  is_p_2mod3 p = true → 2 ^ 16 ≤ p → m ≤ 36 →
  new p L m = Ok (constructed p L m).
Proof.
  intros Hp H16 Hm. unfold new.
  rewrite SBox_new_ok, LinearLayer_new_ok by done.
  cbn [rbind]. rewrite Hp. cbn [negb].
  destruct (Z.ltb_spec 36 m); [lia |].
  destruct (Z.ltb_spec p (Z.shiftl 1 16)) as [Hlt |]; [| done].
  change (Z.shiftl 1 16) with 65536 in Hlt. lia.
Qed.

Lemma init_ok (p : Z) (L : SecurityLevel) (m : Z) (K : list Z)
    (N : list byte) (g : sbox_static) :
  length K = 36%nat →
  init K N (World (constructed p L m) g)
  = (Ok tt, World (initialised p L m K N) g).
Proof. intros HK. unfold init. rewrite HK. reflexivity. Qed.

(** Scenario S5 of the specification (SEC80, m = 12, n = 1, all-ones key,
    nonce 01 02 03 04) at p = 65579: the 24 elements the code produces in a
    process that has not run the S-box layer yet. *)
Example keystream_test_vector :
  (generate_keystream 1 test_world).1
  = Ok [49188; 26474; 35243; 28303; 6599; 27023; 846; 47629; 7892;
        11084; 16650; 33072; 21100; 62917; 8221; 23576; 32332; 35746;
        18128; 57608; 35598; 58546; 22958; 62696].
Proof. vm_compute. reflexivity. Qed.

(** ** What a call leaves of the instance *)

Lemma ret_preserves_self {A} (a : A) : preserves_self (ret a).
Proof. by intros w. Qed.

Lemma throw_preserves_self {A} (e : exn) : preserves_self (@throw A e).
Proof. by intros w. Qed.

Lemma this_preserves_self : preserves_self this.
Proof. by intros w. Qed.

Lemma call_preserves_self {A} (r : result A) : preserves_self (call r).
Proof. by intros w. Qed.

Lemma call_sbox_layer_preserves_self (state : list Z) (p : Z) :
  preserves_self (call_sbox_layer state p).
Proof.
  intros w. unfold call_sbox_layer.
  by destruct (apply_sbox_layer state p (sbox_layer_static w)).
Qed.

Lemma bind_preserves_self {A B} (f : method A) (k : A → method B) :
  preserves_self f → (∀ a, preserves_self (k a)) → preserves_self (bind f k).
Proof.
  intros Hf Hk w. unfold bind.
  specialize (Hf w). destruct (f w) as [[a | e] w']; cbn [snd] in *.
  - rewrite <- Hf. apply Hk.
  - exact Hf.
Qed.

Lemma for_each_preserves_self {A B} (xs : list A) (body : A → B → method B)
    (acc : B) :
  (∀ x b, preserves_self (body x b)) → preserves_self (for_each xs body acc).
Proof.
  intros Hbody. revert acc.
  induction xs as [| x xs IH]; intros acc; cbn [for_each].
  - apply ret_preserves_self.
  - apply bind_preserves_self; [apply Hbody | apply IH].
Qed.

Create HintDb frame discriminated.
#[local] Hint Resolve ret_preserves_self throw_preserves_self
  this_preserves_self call_preserves_self
  call_sbox_layer_preserves_self : frame.
#[local] Hint Extern 2 (preserves_self (bind _ _)) =>
  apply bind_preserves_self; [| intros ?] : frame.
#[local] Hint Extern 2 (preserves_self (for_each _ _ _)) =>
  apply for_each_preserves_self; intros ? ? : frame.
#[local] Hint Extern 3 (preserves_self (if ?b then _ else _)) =>
  destruct b : frame.

Lemma round_transform_preserves_self (state rk : list Z) :
  preserves_self (round_transform state rk).
Proof. unfold round_transform. auto 20 with frame. Qed.

Lemma truncate_preserves_self (state : list Z) :
  preserves_self (truncate state).
Proof. unfold truncate. auto 20 with frame. Qed.

Lemma key_whitening_preserves_self (state : list Z) (j : Z) :
  preserves_self (key_whitening state j).
Proof. unfold key_whitening. auto 20 with frame. Qed.

#[local] Hint Resolve round_transform_preserves_self truncate_preserves_self
  key_whitening_preserves_self : frame.

Lemma round_step_preserves_self (j r : Z) (state : list Z) :
  preserves_self (round_step j r state).
Proof. unfold round_step. auto 20 with frame. Qed.

#[local] Hint Resolve round_step_preserves_self : frame.

Lemma keystream_step_preserves_self (rounds j : Z) (keystream : list Z) :
  preserves_self (keystream_step rounds j keystream).
Proof. unfold keystream_step. auto 20 with frame. Qed.

#[local] Hint Resolve keystream_step_preserves_self : frame.

Lemma generate_keystream_preserves_self (n : Z) :
  preserves_self (generate_keystream n).
Proof. unfold generate_keystream. auto 20 with frame. Qed.

(** [init] is the method that writes the instance. *)
Example init_writes_self :
  self (init test_key test_nonce
          (World (constructed 65579 SEC80 12) None)).2
  ≠ constructed 65579 SEC80 12.
Proof. vm_compute. discriminate. Qed.

(** ** Construction and initialisation *)

Lemma new_throws_iff (p : Z) (L : SecurityLevel) (m : Z) :
  new p L m = Throw invalid_argument ↔ p mod 3 ≠ 2 ∨ p < 2 ^ 16 ∨ 36 < m.
Proof.
  unfold new, SBox.new. rewrite LinearLayer_new_ok.
  destruct (is_p_2mod3 p) eqn:Hp; cbn [rbind negb].
  - pose proof (is_p_2mod3_pos p Hp) as Hpos.
    assert (p mod 3 = 2) by (apply is_p_2mod3_spec; [lia | done]).
    change (Z.shiftl 1 16) with (2 ^ 16).
    destruct (Z.ltb_spec 36 m); [split; [lia | done] |].
    destruct (Z.ltb_spec p (2 ^ 16)); [split; [lia | done] |].
    split; [discriminate | lia].
  - split; [intros _ | done].
    destruct (Z.lt_ge_cases p (2 ^ 16)) as [| H16]; [lia |].
    left. intros H3. apply is_p_2mod3_spec in H3; [congruence | lia].
Qed.

Lemma init_throws_iff (K : list Z) (N : list byte) (w : world) :
  (init K N w).1 = Throw invalid_argument ↔ length K ≠ 36%nat.
Proof.
  unfold init. destruct (Nat.eqb_spec (length K) 36) as [He | Hne]; cbn [negb].
  - split; [discriminate | done].
  - done.
Qed.

Lemma init_throw_keeps (K : list Z) (N : list byte) (w : world) :
  length K ≠ 36%nat → init K N w = (Throw invalid_argument, w).
Proof.
  intros Hne. unfold init.
  destruct (Nat.eqb_spec (length K) 36); [done | reflexivity].
Qed.

Lemma generate_keystream_uninitialised (n : Z) (w : world) :
  master_key_ (self w) = [] →
  generate_keystream n w = (Throw runtime_error, w).
Proof.
  intros HK. unfold generate_keystream.
  rewrite bind_this, HK. reflexivity.
Qed.

(** ** The public surface *)

(** C8: the constructor throws invalid_argument exactly when p is not
    ≡ 2 (mod 3), or p < 2^16, or m > 36, and otherwise returns the instance;
    [init] throws invalid_argument exactly when the key does not have 36
    elements, and then writes nothing; [generate_keystream] on an instance
    that no [init] has populated throws runtime_error (the not-initialised
    error), returns no keystream and writes nothing. *)
Theorem public_surface_errors (p : Z) (L : SecurityLevel) (m : Z) :
  (new p L m = Throw invalid_argument ↔ p mod 3 ≠ 2 ∨ p < 2 ^ 16 ∨ 36 < m)
  ∧ (¬ (p mod 3 ≠ 2 ∨ p < 2 ^ 16 ∨ 36 < m) →
     ∃ c, new p L m = Ok c
       ∧ p_ c = p ∧ level_ c = L ∧ trunc_m_ c = m
       ∧ ∀ n g, generate_keystream n (World c g)
                = (Throw runtime_error, World c g))
  ∧ (∀ K N w,
       ((init K N w).1 = Throw invalid_argument ↔ length K ≠ 36%nat)
       ∧ (length K ≠ 36%nat →
          init K N w = (Throw invalid_argument, w)
          ∧ ∀ n, master_key_ (self w) = [] →
                 generate_keystream n w = (Throw runtime_error, w))
       ∧ (length K = 36%nat →
          ∃ w', init K N w = (Ok tt, w') ∧ master_key_ (self w') = K
                ∧ RoundKeyGenerator.nonce_ (rk_gen_ (self w')) = N)).
Proof.
  split; [apply new_throws_iff |]. split.
  - intros Hgood. exists (constructed p L m).
    assert (H3 : p mod 3 = 2).
    { destruct (Z.eq_dec (p mod 3) 2); [done | tauto]. }
    assert (H16 : 2 ^ 16 ≤ p).
    { destruct (Z.lt_ge_cases p (2 ^ 16)); [tauto | done]. }
    assert (Hm : m ≤ 36).
    { destruct (Z.lt_ge_cases 36 m); [tauto | done]. }
    assert (Hp : is_p_2mod3 p = true) by (apply is_p_2mod3_spec; [lia | done]).
    split; [by apply new_ok |].
    do 3 (split; [reflexivity |]).
    intros n g. by apply generate_keystream_uninitialised.
  - intros K N w. split; [apply init_throws_iff |]. split.
    + intros Hne. split; [by apply init_throw_keeps |].
      intros n HK. by apply generate_keystream_uninitialised.
    + intros HK. unfold init. rewrite HK. cbn [Nat.eqb negb].
      eexists. split; [reflexivity |]. done.
Qed.

Lemma public_surface_errors_witness :
  (∃ c, new 65579 SEC80 12 = Ok c
     ∧ p_ c = 65579 ∧ level_ c = SEC80 ∧ trunc_m_ c = 12
     ∧ ∀ n g, generate_keystream n (World c g)
              = (Throw runtime_error, World c g))
  ∧ init [1; 2; 3] test_nonce test_world = (Throw invalid_argument, test_world)
  ∧ ∃ w', init test_key test_nonce test_world = (Ok tt, w')
          ∧ master_key_ (self w') = test_key
          ∧ RoundKeyGenerator.nonce_ (rk_gen_ (self w')) = test_nonce.
Proof.
  destruct (public_surface_errors 65579 SEC80 12) as (_ & Hnew & Hinit).
  split.
  { apply Hnew. change (65579 mod 3) with 2. lia. }
  split.
  - apply (Hinit [1; 2; 3] test_nonce test_world). simpl. lia.
  - apply (Hinit test_key test_nonce test_world). reflexivity.
Defined.

(** ** The keystream *)

(** The keystream that the code returns, block by block: for every
    initialised cipher with parameters (p, L, m), key K and nonce N, and
    every 32-bit n, [generate_keystream n] returns the concatenation, for
    j = 0..n-1, of the blocks of [Spec.block], n (36 - m) elements in all.
    In these blocks [LinearLayer::apply] of the instance's layer stands
    where the specification has LP, and the S-box layer works mod [sp],
    the modulus of the S-box that [apply_sbox_layer] holds: p itself in a
    process that has not run the S-box layer before, or has run it with
    p. *)
Lemma generate_keystream_blocks (p : Z) (L : SecurityLevel) (m : Z)
    (K : list Z) (N : list byte) (n : Z) (g : sbox_static) :
  Spec.valid_modulus p → 0 ≤ m ≤ 36 → length K = 36%nat →
  0 ≤ n < 2 ^ 32 → static_ok g →
  let sp := SBox.p_ (effective_sbox g p) in
  ∃ c0 c ll g',
    new p L m = Ok c0
    ∧ init K N (World c0 g) = (Ok tt, World c g)
    ∧ linear_layer_ c = ll
    ∧ generate_keystream n (World c g)
      = (Ok (flat_map (Spec.block ll sp p L m K N) (seqZ 0 n)), World c g')
    ∧ Z.of_nat (length (flat_map (Spec.block ll sp p L m K N) (seqZ 0 n)))
      = n * (36 - m)
    ∧ (g = None ∨ g = Some {| SBox.p_ := p |} → sp = p)
    ∧ level_value SEC80 = 5 ∧ level_value SEC128 = 6.
Proof.
  intros [Hp H16]%valid_modulus_checks Hm HK Hn Hg sp.
  exists (constructed p L m), (initialised p L m K N), the_linear_layer,
    (static_after g p n).
  split; [apply new_ok; [done | done | lia] |].
  split; [by apply init_ok |].
  split; [reflexivity |].
  split; [by apply generate_keystream_run |].
  split; [apply keystream_length; [done | lia | done | lia] |].
  split; [by intros [-> | ->] | done].
Qed.

Lemma generate_keystream_blocks_witness :
  Spec.valid_modulus 65579 ∧
  ∃ c0 c ll g',
    new 65579 SEC80 12 = Ok c0
    ∧ init test_key test_nonce (World c0 None) = (Ok tt, World c None)
    ∧ linear_layer_ c = ll
    ∧ generate_keystream 1 (World c None)
      = (Ok (flat_map (Spec.block ll 65579 65579 SEC80 12 test_key test_nonce)
               (seqZ 0 1)), World c g')
    ∧ Z.of_nat (length (flat_map
                  (Spec.block ll 65579 65579 SEC80 12 test_key test_nonce)
                  (seqZ 0 1))) = 1 * (36 - 12)
    ∧ (@None SBox.t = None ∨ None = Some {| SBox.p_ := 65579 |}
       → 65579 = 65579)
    ∧ level_value SEC80 = 5 ∧ level_value SEC128 = 6.
Proof.
  split; [split; [reflexivity | lia] |].
  apply (generate_keystream_blocks 65579 SEC80 12 test_key test_nonce 1 None);
    [split; [reflexivity | lia] | lia | reflexivity | lia | exact I].
Defined.

(** C4, in scenario S5 of the specification (p = 65579, SEC80, m = 12,
    n = 1, the all-ones key, nonce 01 02 03 04) and a process that has not
    run the S-box layer yet: [generate_keystream] does not return the
    keystream of the pipeline CV_j, whitening with rk^(0,j), R rounds
    AK (LP (SL state), rk^(r,j)), final LP, truncation to state[m..36].
    The 24 elements of the code and the 24 of the pipeline differ at every
    position.  The instance holds the matrix M and its S-box layer works
    mod p here; the code returns the pipeline run with
    [LinearLayer::apply] where LP stands, and [LinearLayer::apply] is not
    the product with M. *)
Theorem generate_keystream_differs_from_pipeline :
  let code := (generate_keystream 1 test_world).1 in
  let claimed :=
    Spec.pipeline_keystream 65579 SEC80 12 test_key test_nonce 1 in
  prime 65579 ∧ Spec.valid_modulus 65579
  ∧ new 65579 SEC80 12 = Ok (constructed 65579 SEC80 12)
  ∧ init test_key test_nonce (World (constructed 65579 SEC80 12) None)
    = (Ok tt, test_world)
  ∧ code
    = Ok [49188; 26474; 35243; 28303; 6599; 27023; 846; 47629; 7892;
          11084; 16650; 33072; 21100; 62917; 8221; 23576; 32332; 35746;
          18128; 57608; 35598; 58546; 22958; 62696]
  ∧ claimed
    = [52102; 27204; 45653; 17868; 47746; 25543; 25205; 44096; 55503;
       22544; 34162; 31465; 61064; 18155; 53764; 64198; 48246; 14886;
       18203; 35931; 42846; 19342; 52977; 26974]
  ∧ code ≠ Ok claimed
  ∧ LinearLayer.matrix_ (linear_layer_ (self test_world)) = Spec.M
  ∧ effective_sbox (sbox_layer_static test_world) 65579
    = {| SBox.p_ := 65579 |}
  ∧ level_value SEC80 = Spec.R SEC80
  ∧ code
    = Ok (Spec.keystream (linear_layer_ (self test_world)) 65579 65579
            SEC80 12 test_key test_nonce 1).
Proof.
  intros code claimed.
  split; [apply prime_65579 |].
  split; [split; [reflexivity | lia] |].
  split; [vm_compute; reflexivity |].
  split; [vm_compute; reflexivity |].
  split; [vm_compute; reflexivity |].
  split; [vm_compute; reflexivity |].
  split; [vm_compute; discriminate |].
  split; [vm_compute; reflexivity |].
  split; [reflexivity |].
  split; [reflexivity |].
  vm_compute. reflexivity.
Qed.

(** C2, as stated, fails: on the test instance the second of two
    [generate_keystream 1] calls returns block 0 again, not block 1. *)
Lemma block_counter_counterexample :
  new 65579 SEC80 12 = Ok (constructed 65579 SEC80 12)
  ∧ init test_key test_nonce (World (constructed 65579 SEC80 12) None)
    = (Ok tt, test_world)
  ∧ let first := generate_keystream 1 test_world in
    let second := generate_keystream 1 first.2 in
    let block j :=
      Spec.block the_linear_layer 65579 65579 SEC80 12 test_key test_nonce j in
    first.1 = Ok (block 0) ∧ second.1 = Ok (block 0) ∧ second.1 ≠ Ok (block 1).
Proof.
  split; [vm_compute; reflexivity |].
  split; [vm_compute; reflexivity |].
  vm_compute. repeat split. discriminate.
Qed.

(** C2, amended: the instance keeps no block counter.  Every
    [generate_keystream n] call on an initialised cipher produces the
    blocks j = 0..n-1, so a call that follows another starts again at
    block 0: after a call with n1, a call with n2 returns the blocks
    0..n2-1 (two successive calls with n = 1 both return block 0). *)
Theorem generate_keystream_restarts (p : Z) (L : SecurityLevel) (m : Z)
    (K : list Z) (N : list byte) (n1 n2 : Z) (g : sbox_static) :
  Spec.valid_modulus p → 0 ≤ m ≤ 36 → length K = 36%nat →
  0 ≤ n1 < 2 ^ 32 → 0 ≤ n2 < 2 ^ 32 → static_ok g →
  let sp := SBox.p_ (effective_sbox g p) in
  ∃ c0 c w1 w2,
    new p L m = Ok c0
    ∧ init K N (World c0 g) = (Ok tt, World c g)
    ∧ generate_keystream n1 (World c g)
      = (Ok (flat_map (Spec.block (linear_layer_ c) sp p L m K N) (seqZ 0 n1)),
         w1)
    ∧ generate_keystream n2 w1
      = (Ok (flat_map (Spec.block (linear_layer_ c) sp p L m K N) (seqZ 0 n2)),
         w2).
Proof.
  intros Hv Hm HK Hn1 Hn2 Hg sp.
  destruct (valid_modulus_checks p Hv) as [Hp H16].
  exists (constructed p L m), (initialised p L m K N),
    (World (initialised p L m K N) (static_after g p n1)),
    (World (initialised p L m K N)
       (static_after (static_after g p n1) p n2)).
  split; [apply new_ok; [done | done | lia] |].
  split; [by apply init_ok |].
  split; [by apply generate_keystream_run |].
  by apply generate_keystream_again.
Qed.

Lemma generate_keystream_restarts_witness :
  Spec.valid_modulus 65579 ∧
  ∃ c0 c w1 w2,
    new 65579 SEC80 12 = Ok c0
    ∧ init test_key test_nonce (World c0 None) = (Ok tt, World c None)
    ∧ generate_keystream 1 (World c None)
      = (Ok (flat_map (Spec.block (linear_layer_ c) 65579 65579 SEC80 12
                         test_key test_nonce) (seqZ 0 1)), w1)
    ∧ generate_keystream 1 w1
      = (Ok (flat_map (Spec.block (linear_layer_ c) 65579 65579 SEC80 12
                         test_key test_nonce) (seqZ 0 1)), w2).
Proof.
  split; [split; [reflexivity | lia] |].
  apply (generate_keystream_restarts
           65579 SEC80 12 test_key test_nonce 1 1 None);
    [split; [reflexivity | lia] | lia | reflexivity | lia | lia | exact I].
Defined.

(** C3, at two runs with the same (p, L, m, K, N, n) = (65579, SEC80, 12,
    all-ones key, nonce 01 02 03 04, 1): the run in a fresh process and the
    run after an instance with modulus 65537 has produced a block return
    different keystreams, because [apply_sbox_layer] keeps the S-box of the
    first modulus it was called with. *)
Theorem static_sbox_breaks_determinism :
  let cA := initialised 65537 SEC80 12 test_key test_nonce in
  let cB := initialised 65579 SEC80 12 test_key test_nonce in
  prime 65537 ∧ prime 65579
  ∧ (∃ c0, new 65537 SEC80 12 = Ok c0
           ∧ init test_key test_nonce (World c0 None) = (Ok tt, World cA None))
  ∧ (∀ g, ∃ c0, new 65579 SEC80 12 = Ok c0
           ∧ init test_key test_nonce (World c0 g) = (Ok tt, World cB g))
  ∧ let alone := generate_keystream 1 (World cB None) in
    let used := sbox_layer_static (generate_keystream 1 (World cA None)).2 in
    let after := generate_keystream 1 (World cB used) in
    used = Some {| SBox.p_ := 65537 |}
    ∧ alone.1
      = Ok [49188; 26474; 35243; 28303; 6599; 27023; 846; 47629; 7892;
            11084; 16650; 33072; 21100; 62917; 8221; 23576; 32332; 35746;
            18128; 57608; 35598; 58546; 22958; 62696]
    ∧ after.1
      = Ok [22522; 3673; 56347; 39978; 36075; 1691; 31470; 6044; 27390;
            56484; 57128; 11523; 29498; 19168; 24443; 41067; 54697; 62319;
            51; 64189; 30892; 9133; 44442; 16730]
    ∧ alone.1 ≠ after.1.
Proof.
  intros cA cB.
  split; [apply prime_65537 |]. split; [apply prime_65579 |].
  split.
  { exists (constructed 65537 SEC80 12).
    split; [vm_compute; reflexivity | by apply init_ok]. }
  split.
  { intros g. exists (constructed 65579 SEC80 12).
    split; [vm_compute; reflexivity | by apply init_ok]. }
  vm_compute. repeat split. discriminate.
Qed.

(** C10: [generate_keystream] writes nothing of the instance, whatever the
    instance and the argument; on an initialised cipher the modulus, the
    security level, the truncation width, the master key and the round-key
    generator with its nonce are after the call what they were before it,
    and a second call with the same n returns the same keystream. *)
Theorem generate_keystream_frame (p : Z) (L : SecurityLevel) (m : Z)
    (K : list Z) (N : list byte) (n : Z) (g : sbox_static) :
  Spec.valid_modulus p → 0 ≤ m ≤ 36 → length K = 36%nat →
  0 ≤ n < 2 ^ 32 → static_ok g →
  (∀ w, self (generate_keystream n w).2 = self w)
  ∧ ∃ c0 c ks w1 w2,
      new p L m = Ok c0
      ∧ init K N (World c0 g) = (Ok tt, World c g)
      ∧ generate_keystream n (World c g) = (Ok ks, w1)
      ∧ self w1 = c
      ∧ generate_keystream n w1 = (Ok ks, w2)
      ∧ self w2 = c
      ∧ p_ c = p ∧ level_ c = L ∧ trunc_m_ c = m ∧ master_key_ c = K
      ∧ rk_gen_ c = RoundKeyGenerator.new N (level_value L).
Proof.
  intros Hv Hm HK Hn Hg.
  destruct (valid_modulus_checks p Hv) as [Hp H16].
  split; [apply generate_keystream_preserves_self |].
  exists (constructed p L m), (initialised p L m K N),
    (Spec.keystream the_linear_layer (SBox.p_ (effective_sbox g p))
       p L m K N n),
    (World (initialised p L m K N) (static_after g p n)),
    (World (initialised p L m K N)
       (static_after (static_after g p n) p n)).
  split; [apply new_ok; [done | done | lia] |].
  split; [by apply init_ok |].
  split; [by apply generate_keystream_run |].
  split; [reflexivity |].
  split; [by apply generate_keystream_again |].
  repeat (split; [reflexivity |]). reflexivity.
Qed.

Lemma generate_keystream_frame_witness :
  Spec.valid_modulus 65579 ∧
  (∀ w, self (generate_keystream 2 w).2 = self w)
  ∧ ∃ c0 c ks w1 w2,
      new 65579 SEC128 24 = Ok c0
      ∧ init test_key test_nonce (World c0 None) = (Ok tt, World c None)
      ∧ generate_keystream 2 (World c None) = (Ok ks, w1)
      ∧ self w1 = c
      ∧ generate_keystream 2 w1 = (Ok ks, w2)
      ∧ self w2 = c
      ∧ p_ c = 65579 ∧ level_ c = SEC128 ∧ trunc_m_ c = 24
      ∧ master_key_ c = test_key
      ∧ rk_gen_ c = RoundKeyGenerator.new test_nonce (level_value SEC128).
Proof.
  split; [split; [reflexivity | lia] |].
  apply (generate_keystream_frame 65579 SEC128 24 test_key test_nonce 2 None);
    [split; [reflexivity | lia] | lia | reflexivity | lia | exact I].
Defined.

(** * Further properties of the code *)

(** ** Serialisation *)

Lemma Z_of_byte_of_Z (z : Z) :
  0 ≤ z < 256 → Keccak.Z_of_byte (Keccak.byte_of_Z z) = z.
Proof.
  intros Hz. unfold Keccak.Z_of_byte, Keccak.byte_of_Z.
  destruct (Byte.of_N (Z.to_N z)) as [b |] eqn:Hb.
  - apply Byte.to_of_N in Hb. simpl. rewrite Hb. lia.
  - apply Byte.of_N_None_iff in Hb. lia.
Qed.

Lemma bytes_to_mpz_app (a b : list byte) :
  bytes_to_mpz (a ++ b)
  = bytes_to_mpz a * 256 ^ Z.of_nat (length b) + bytes_to_mpz b.
Proof.
  unfold bytes_to_mpz. rewrite fold_left_app.
  generalize (fold_left (λ num x, num * 256 + Keccak.Z_of_byte x) a 0).
  induction b as [| x b IH]; intros acc.
  - simpl. lia.
  - cbn [fold_left length]. rewrite IH, (IH (0 * 256 + Keccak.Z_of_byte x)).
    rewrite Nat2Z.inj_succ, Z.pow_succ_r by lia. ring.
Qed.

Lemma bytes_to_mpz_range (a : list byte) :
  0 ≤ bytes_to_mpz a < 256 ^ Z.of_nat (length a).
Proof.
  induction a as [| x a IH] using rev_ind.
  - simpl. unfold bytes_to_mpz. simpl. lia.
  - rewrite bytes_to_mpz_app, length_app. cbn [length].
    replace (bytes_to_mpz [x]) with (Keccak.Z_of_byte x)
      by (unfold bytes_to_mpz; simpl; lia).
    pose proof (Z_of_byte_range x).
    rewrite Nat2Z.inj_add, Z.pow_add_r by lia.
    change (256 ^ Z.of_nat 1) with 256. nia.
Qed.

Lemma bytes_to_mpz_zeros (k : nat) : bytes_to_mpz (repeat x00 k) = 0.
Proof.
  induction k as [| k IH]; [reflexivity |].
  change (repeat x00 (S k)) with ([x00] ++ repeat x00 k).
  rewrite bytes_to_mpz_app, IH. reflexivity.
Qed.

Lemma bytes_to_mpz_digits (c : nat) (a : Z) :
  0 ≤ a < 256 ^ Z.of_nat c →
  bytes_to_mpz
    (map (fun i : nat =>
            Keccak.byte_of_Z ((a / 256 ^ Z.of_nat (c - 1 - i)) mod 256))
         (seq 0 c)) = a.
Proof.
  revert a. induction c as [| c IH]; intros a Ha.
  - simpl in *. unfold bytes_to_mpz. simpl. lia.
  - rewrite seq_S, map_app, bytes_to_mpz_app. cbn [map length Nat.add].
    replace (S c - 1 - c)%nat with 0%nat by lia.
    change (256 ^ Z.of_nat 0) with 1. rewrite Z.div_1_r.
    change (256 ^ Z.of_nat 1) with 256.
    replace (bytes_to_mpz [Keccak.byte_of_Z (a mod 256)]) with (a mod 256).
    2:{ unfold bytes_to_mpz. cbn [fold_left].
        rewrite Z_of_byte_of_Z by (apply Z.mod_pos_bound; lia). lia. }
    assert (Hq : 0 ≤ a / 256 < 256 ^ Z.of_nat c).
    { rewrite Nat2Z.inj_succ, Z.pow_succ_r in Ha by lia.
      split; [apply Z.div_pos; lia |].
      apply Z.div_lt_upper_bound; lia. }
    rewrite (map_ext_in _ (fun i : nat =>
       Keccak.byte_of_Z ((a / 256 / 256 ^ Z.of_nat (c - 1 - i)) mod 256))).
    + rewrite IH by done.
      pose proof (Z.div_mod a 256 ltac:(lia)). lia.
    + intros i Hi%in_seq. f_equal. f_equal.
      rewrite Z.div_div by (try lia; apply Z.pow_pos_nonneg; lia).
      f_equal. rewrite <- Z.pow_succ_r by lia. f_equal. lia.
Qed.

Lemma mpz_export_value (num : Z) : bytes_to_mpz (mpz_export num) = Z.abs num.
Proof.
  unfold mpz_export. destruct (Z.eqb_spec num 0) as [-> | Hne]; [reflexivity |].
  apply bytes_to_mpz_digits.
  unfold mpz_sizeinbase2. destruct (Z.eqb_spec num 0); [done |].
  pose proof (Z.log2_nonneg (Z.abs num)).
  pose proof (Z.log2_spec (Z.abs num) ltac:(lia)) as [_ Hlt].
  split; [lia |].
  eapply Z.lt_le_trans; [exact Hlt |].
  rewrite Z2Nat.id by (apply Z.div_pos; lia).
  change 256 with (2 ^ 8). rewrite <- Z.pow_mul_r by (try lia; apply Z.div_pos; lia).
  apply Z.pow_le_mono_r; [lia |].
  pose proof (Z.div_mod (Z.log2 (Z.abs num) + 1 + 7) 8 ltac:(lia)).
  pose proof (Z.mod_pos_bound (Z.log2 (Z.abs num) + 1 + 7) 8 ltac:(lia)).
  lia.
Qed.

Lemma mpz_export_length (num : Z) :
  length (mpz_export num)
  = if num =? 0 then 0%nat else Z.to_nat ((mpz_sizeinbase2 num + 7) / 8).
Proof.
  unfold mpz_export. destruct (num =? 0); [reflexivity |].
  by rewrite length_map, length_seq.
Qed.

(** X1: [mpz_to_bytes] returns [bitlength / 8 + 1] bytes: the big-endian
    magnitude of [num] at the front, zero bytes behind it.  Read back by
    [bytes_to_mpz] this gives [|num|] when the bit length of [num] is not
    a multiple of 8, and [256 * |num|] when it is (the buffer is one byte
    longer than the magnitude and the padding byte comes last): the round
    trip returns [|num|] exactly when the bit length is not a multiple
    of 8. *)
Theorem mpz_to_bytes_round_trip (num : Z) :
  length (mpz_to_bytes num) = Z.to_nat (mpz_sizeinbase2 num / 8 + 1)
  ∧ bytes_to_mpz (mpz_to_bytes num)
    = (if mpz_sizeinbase2 num mod 8 =? 0 then 256 * Z.abs num else Z.abs num)
  ∧ (bytes_to_mpz (mpz_to_bytes num) = Z.abs num
     ↔ mpz_sizeinbase2 num mod 8 ≠ 0).
Proof.
  assert (Hbits : 1 ≤ mpz_sizeinbase2 num).
  { unfold mpz_sizeinbase2. destruct (num =? 0); [lia |].
    pose proof (Z.log2_nonneg (Z.abs num)). lia. }
  assert (Hlen : (length (mpz_export num)
                  ≤ Z.to_nat (mpz_sizeinbase2 num / 8 + 1))%nat).
  { rewrite mpz_export_length. destruct (num =? 0); [lia |].
    apply Z2Nat.inj_le; [apply Z.div_pos; lia | |];
      Z.to_euclidean_division_equations; lia. }
  assert (Hval : bytes_to_mpz (mpz_to_bytes num)
    = (if mpz_sizeinbase2 num mod 8 =? 0 then 256 * Z.abs num else Z.abs num)).
  { unfold mpz_to_bytes.
    rewrite bytes_to_mpz_app, bytes_to_mpz_zeros, mpz_export_value, repeat_length.
    rewrite mpz_export_length.
    destruct (Z.eqb_spec num 0) as [-> | Hne].
    - reflexivity.
    - destruct (Z.eqb_spec (mpz_sizeinbase2 num mod 8) 0) as [H8 | H8].
      + replace (Z.to_nat (mpz_sizeinbase2 num / 8 + 1)
                 - Z.to_nat ((mpz_sizeinbase2 num + 7) / 8))%nat with 1%nat.
        * change (256 ^ Z.of_nat 1) with 256. lia.
        * Z.to_euclidean_division_equations; lia.
      + replace (Z.to_nat (mpz_sizeinbase2 num / 8 + 1)
                 - Z.to_nat ((mpz_sizeinbase2 num + 7) / 8))%nat with 0%nat.
        * change (256 ^ Z.of_nat 0) with 1. lia.
        * Z.to_euclidean_division_equations; lia. }
  split; [| split; [exact Hval |]].
  - unfold mpz_to_bytes. rewrite length_app, repeat_length. lia.
  - rewrite Hval.
    destruct (Z.eqb_spec (mpz_sizeinbase2 num mod 8) 0) as [H8 | H8].
    + split; [| done]. intros Habs.
      assert (num = 0) as -> by lia. vm_compute in H8. discriminate.
    + done.
Qed.

Example mpz_to_bytes_255 :
  mpz_to_bytes 255 = [xff; x00] ∧ bytes_to_mpz (mpz_to_bytes 255) = 65280
  ∧ mpz_to_bytes 65579 = [x01; x00; x2b]
  ∧ bytes_to_mpz (mpz_to_bytes 65579) = 65579.
Proof. vm_compute. done. Qed.

(** X2: [bytes_to_mpz] reads its argument as one big-endian base-256
    number: appending [b] shifts the value of [a] by [8 * length b] bits,
    the value is non-negative and below [256 ^ length], a leading zero
    byte changes nothing and the empty vector gives 0. *)
Theorem bytes_to_mpz_big_endian (a b : list byte) :
  bytes_to_mpz (a ++ b)
  = bytes_to_mpz a * 256 ^ Z.of_nat (length b) + bytes_to_mpz b
  ∧ 0 ≤ bytes_to_mpz a < 256 ^ Z.of_nat (length a)
  ∧ bytes_to_mpz (x00 :: a) = bytes_to_mpz a
  ∧ bytes_to_mpz [] = 0.
Proof.
  split; [apply bytes_to_mpz_app |].
  split; [apply bytes_to_mpz_range |].
  split; [| reflexivity].
  change (x00 :: a) with ([x00] ++ a). rewrite bytes_to_mpz_app.
  change (bytes_to_mpz [x00]) with 0. lia.
Qed.

(** ** [mod] *)

(** X3: [mod(a, p)]: for a positive [p] the truncated remainder with its
    fix-up is the floored residue of [a], in [0, p).  For a negative [p]
    the function returns the truncated remainder for [a ≥ 0], and for a
    negative [a] that [p] does not divide a value below [p]. *)
Theorem mod_floor (a p : Z) :
  (0 < p → mod_ a p = a mod p ∧ 0 ≤ mod_ a p < p)
  ∧ (p < 0 → 0 ≤ a → mod_ a p = Z.rem a p ∧ 0 ≤ mod_ a p < - p)
  ∧ (p < 0 → a < 0 → Z.rem a p ≠ 0 → mod_ a p < p).
Proof.
  split; [| split].
  - intros Hp. split; [by apply mod_spec | by apply mod_range].
  - intros Hp Ha. unfold mod_.
    pose proof (Z.rem_bound_abs a p ltac:(lia)) as Habs.
    pose proof (Z.rem_nonneg a p ltac:(lia) Ha) as Hnn.
    destruct (Z.ltb_spec (Z.rem a p) 0); lia.
  - intros Hp Ha Hrem. unfold mod_.
    pose proof (Z.rem_nonpos a p ltac:(lia) ltac:(lia)) as Hnp.
    destruct (Z.ltb_spec (Z.rem a p) 0); lia.
Qed.


(** ** [generate_prime] *)

Lemma prime_65521 : prime 65521.
Proof. apply is_prime_b_sound. vm_compute. reflexivity. Qed.

Lemma generate_prime_retry_false (p : Z) :
  generate_prime_retry p = false ↔ is_p_2mod3 p = true ∧ 65536 ≤ p.
Proof.
  unfold generate_prime_retry. change (Z.shiftl 1 16) with 65536.
  destruct (is_p_2mod3 p), (Z.ltb_spec p 65536); cbn;
    (split; [intros ?; try done | intros [? ?]; try done; try lia]);
    split; (done || lia).
Qed.

Lemma generate_prime_loop_exit (bits p : Z) :
  generate_prime_loop bits p →
  ∃ r, 0 ≤ r < 2 ^ bits ∧ nextprime r p ∧ generate_prime_retry p = false.
Proof.
  induction 1 as [r p Hr Hnext Hretry | r p q Hr Hnext Hretry _ IH];
    [by exists r | exact IH].
Qed.

Lemma not_prime_65536 : ¬ prime 65536.
Proof.
  intros [_ Hdiv]%prime_alt.
  apply (Hdiv 2); [lia | by exists 32768].
Qed.

Lemma generate_prime_correct (bits p : Z) :
  generate_prime bits (Ok p) →
  prime p ∧ p mod 3 = 2 ∧ 2 ^ 16 < p ∧ 16 ≤ bits ∧ (bits = 16 → p = 65537).
Proof.
  intros Hgen. inversion Hgen as [| p' Hloop]; subst p'.
  destruct (generate_prime_loop_exit _ _ Hloop)
    as (r & Hr & (Hprime & Hrp & Hleast) & Hretry).
  apply generate_prime_retry_false in Hretry as [H3 H16].
  assert (Hne : p ≠ 65536) by (intros ->; exact (not_prime_65536 Hprime)).
  assert (Hr' : 65521 ≤ r).
  { destruct (Z.le_gt_cases 65521 r) as [| Hlt]; [done |].
    destruct (Hleast 65521 ltac:(lia)). apply prime_65521. }
  assert (Hbits : 16 ≤ bits).
  { destruct (Z.le_gt_cases 16 bits) as [| Hlt]; [done |].
    destruct (Z.le_gt_cases 0 bits) as [Hnn | Hneg].
    - pose proof (Z.pow_le_mono_r 2 bits 15 ltac:(lia) ltac:(lia)) as Hpow.
      change (2 ^ 15) with 32768 in Hpow. lia.
    - rewrite Z.pow_neg_r in Hr by lia. lia. }
  split; [done |].
  split; [apply is_p_2mod3_spec; [lia | done] |].
  split; [change (2 ^ 16) with 65536; lia |].
  split; [done |].
  intros ->. change (2 ^ 16) with 65536 in Hr.
  destruct (Z.le_gt_cases p 65537) as [| Hgt]; [lia |].
  destruct (Hleast 65537 ltac:(lia)). apply prime_65537.
Qed.

Lemma nextprime_65535 : nextprime 65535 65537.
Proof.
  split; [apply prime_65537 |]. split; [lia |].
  intros r Hr. replace r with 65536 by lia. apply not_prime_65536.
Qed.

(** X4: [generate_prime], with [mpz_urandomb] drawing any value below
    [2 ^ bits] and [mpz_nextprime] returning the least prime above its
    argument: every value the function returns is a prime, congruent to 2
    modulo 3 and above [2 ^ 16], so the constructor of [YuSCipher] accepts
    it with any truncation of at most 36; with [bits = 16] the only
    possible result is 65537.  With fewer than 16 bits the loop has no
    exit, so the function returns nothing; from 16 bits on it can
    return. *)
Theorem generate_prime_outcomes (bits : Z) :
  (∀ p, generate_prime bits (Ok p) →
        prime p ∧ p mod 3 = 2 ∧ 2 ^ 16 < p
        ∧ (bits = 16 → p = 65537)
        ∧ ∀ L m, m ≤ 36 → new p L m = Ok (constructed p L m))
  ∧ (bits < 16 → ∀ p, ¬ generate_prime bits (Ok p))
  ∧ (16 ≤ bits → generate_prime bits (Ok 65537)).
Proof.
  split; [| split].
  - intros p Hgen.
    destruct (generate_prime_correct bits p Hgen) as (Hp & H3 & H16 & _ & Hb).
    do 4 (split; [done |]).
    intros L m Hm. apply new_ok; [| lia | done].
    apply is_p_2mod3_spec; [lia | done].
  - intros Hbits p Hgen.
    destruct (generate_prime_correct bits p Hgen) as (_ & _ & _ & Hb & _). lia.
  - intros Hbits.
    apply generate_prime_returns, (generate_prime_exit bits 65535 65537);
      [| apply nextprime_65535 | reflexivity].
    pose proof (Z.pow_le_mono_r 2 16 bits ltac:(lia) ltac:(lia)) as Hpow.
    change (2 ^ 16) with 65536 in Hpow. lia.
Qed.

(** ** S-box *)

(** X5: the constructor of [SBox] accepts exactly the [p ≥ 2] with
    [p mod 3 = 2] and throws [invalid_argument] for every other [p]; the
    truncated [%] makes it reject every negative [p].  Primality is not
    looked at. *)
Theorem SBox_new_accepts (p : Z) :
  (SBox.new p = Ok {| SBox.p_ := p |} ↔ 2 ≤ p ∧ p mod 3 = 2)
  ∧ (SBox.new p = Throw invalid_argument ↔ ¬ (2 ≤ p ∧ p mod 3 = 2))
  ∧ (p < 0 → SBox.new p = Throw invalid_argument).
Proof.
  assert (Hiff : is_p_2mod3 p = true ↔ 2 ≤ p ∧ p mod 3 = 2).
  { split.
    - intros H. pose proof (is_p_2mod3_pos p H).
      split; [done |]. apply is_p_2mod3_spec; [lia | done].
    - intros [H2 H3]. apply is_p_2mod3_spec; [lia | done]. }
  unfold SBox.new. destruct (is_p_2mod3 p) eqn:Hp.
  - assert (Hgood : 2 ≤ p ∧ p mod 3 = 2) by (by apply Hiff).
    split; [tauto |]. split; [| lia].
    split; [discriminate | tauto].
  - assert (Hbad : ¬ (2 ≤ p ∧ p mod 3 = 2)).
    { intros H%Hiff. discriminate. }
    split; [| split; [| done]].
    + split; [discriminate | tauto].
    + tauto.
Qed.

Lemma cong_mod (p a b k : Z) : 0 < p → a = b + k * p → a mod p = b mod p.
Proof. intros Hp ->. apply Z.mod_add. lia. Qed.

Lemma sbox_residues (p x0 x1 x2 : Z) :
  0 < p →
  Spec.sbox p (x0 mod p) (x1 mod p) (x2 mod p) = Spec.sbox p x0 x1 x2.
Proof.
  intros Hp. unfold Spec.sbox.
  pose proof (Z.div_mod x0 p ltac:(lia)) as H0.
  pose proof (Z.div_mod x1 p ltac:(lia)) as H1.
  pose proof (Z.div_mod x2 p ltac:(lia)) as H2.
  rewrite (Z.mod_mod x0) by lia.
  remember (x0 mod p) as r0 eqn:E0. remember (x1 mod p) as r1 eqn:E1.
  remember (x2 mod p) as r2 eqn:E2.
  remember (x0 / p) as q0 eqn:F0. remember (x1 / p) as q1 eqn:F1.
  remember (x2 / p) as q2 eqn:F2.
  clear E0 E1 E2 F0 F1 F2.
  assert (Hy1 : (x0 * x2 + x1) mod p = (r0 * r2 + r1) mod p).
  { apply (cong_mod p _ _ (p * q0 * q2 + q0 * r2 + r0 * q2 + q1) Hp).
    rewrite H0 at 1. rewrite H1 at 1. rewrite H2 at 1. ring. }
  assert (Hy2 : (- x0 * x1 + x0 * x2 + x2) mod p
                = (- r0 * r1 + r0 * r2 + r2) mod p).
  { apply (cong_mod p _ _
             (- (p * q0 * q1) - q0 * r1 - r0 * q1
              + p * q0 * q2 + q0 * r2 + r0 * q2 + q2) Hp).
    rewrite H0 at 1 2. rewrite H1 at 1. rewrite H2 at 1 2. ring. }
  by rewrite Hy1, Hy2.
Qed.

(** X6: [SBox::apply] with a positive modulus throws [invalid_argument]
    exactly for inputs that do not have 3 elements.  On 3 elements it
    returns 3 elements, the first the residue of [x0], the others in
    [0, p); the result depends on the inputs only through their residues
    modulo [p]. *)
Theorem SBox_apply_total (sb : SBox.t) (input : list Z) :
  0 < SBox.p_ sb →
  (SBox.apply sb input = Throw invalid_argument ↔ length input ≠ 3%nat)
  ∧ (∀ x0 x1 x2,
       input = [x0; x1; x2] →
       SBox.apply sb input
       = SBox.apply sb [x0 mod SBox.p_ sb; x1 mod SBox.p_ sb;
                        x2 mod SBox.p_ sb]
       ∧ ∃ y0 y1 y2,
           SBox.apply sb input = Ok [y0; y1; y2]
           ∧ y0 = x0 mod SBox.p_ sb
           ∧ Spec.field_element (SBox.p_ sb) y1
           ∧ Spec.field_element (SBox.p_ sb) y2).
Proof.
  intros Hp. split.
  - destruct input as [| x0 [| x1 [| x2 [| x3 rest]]]]; simpl;
      (split; [done || discriminate | done || (intros H; exfalso; by apply H)]).
  - intros x0 x1 x2 ->. rewrite !SBox_apply_spec by done.
    split; [by rewrite sbox_residues |].
    unfold Spec.sbox. do 3 eexists. split; [reflexivity |].
    split; [reflexivity |]. split; apply Z.mod_pos_bound, Hp.
Qed.

Lemma SBox_apply_total_witness :
  SBox.apply {| SBox.p_ := 5 |} [7; -3; 11]
  = SBox.apply {| SBox.p_ := 5 |} [2; 2; 1]
  ∧ (SBox.apply {| SBox.p_ := 5 |} [7; -3] = Throw invalid_argument
     ↔ length [7; -3] ≠ 3%nat).
Proof.
  split.
  - destruct (SBox_apply_total {| SBox.p_ := 5 |} [7; -3; 11] eq_refl)
      as [_ H].
    destruct (H 7 (-3) 11 eq_refl) as [H' _]. exact H'.
  - exact (proj1 (SBox_apply_total {| SBox.p_ := 5 |} [7; -3] eq_refl)).
Defined.

Lemma mod_eq_divide (p a b : Z) : 0 < p → a mod p = b mod p → (p | a - b).
Proof.
  intros Hp H.
  pose proof (Z.div_mod a p ltac:(lia)). pose proof (Z.div_mod b p ltac:(lia)).
  exists (a / p - b / p). lia.
Qed.

Lemma divide_small (p b : Z) : - p < b < p → (p | b) → b = 0.
Proof.
  intros Hb [k ->].
  destruct (Z.eq_dec k 0) as [-> | Hk]; [lia |].
  assert (k ≤ -1 ∨ 1 ≤ k) as [? | ?] by lia; nia.
Qed.

(** For a prime p ≡ 2 (mod 3) the polynomial x^2 + x + 1 has no root mod p:
    a root would be a cube root of unity other than 1, and by Fermat's
    little theorem x = x^(p-1) = 1 in F_p. *)
Lemma no_cube_root_of_unity (p x : Z) :
  prime p → p mod 3 = 2 → ¬ (p | x * x + x + 1).
Proof.
  intros Hprime%prime_alt H3 Hdiv.
  pose proof (Z.prime_ge_2 p Hprime) as Hp2.
  assert (Hx : x mod p ≠ 0).
  { intros Hx0. apply Z.mod_divide in Hx0; [| lia].
    assert (H1 : (p | 1)).
    { replace 1 with (x * x + x + 1 - x * (x + 1)) by ring.
      apply Z.divide_sub_r; [done |]. by apply Z.divide_mul_l. }
    pose proof (Z.divide_1_r_nonneg p ltac:(lia) H1). lia. }
  assert (Hcube : x ^ 3 mod p = 1).
  { rewrite <- (Z.mod_small 1 p) by lia.
    destruct Hdiv as [k Hk].
    apply (cong_mod p _ _ (k * (x - 1))); [lia |].
    replace (x ^ 3) with ((x - 1) * (x * x + x + 1) + 1) by ring.
    rewrite Hk. ring. }
  pose proof (ZmodInv.Z.fermat_nz p x Hprime Hx) as Hfermat.
  assert (Hpk : p - 1 = 3 * (p / 3) + 1).
  { pose proof (Z.div_mod p 3 ltac:(lia)). lia. }
  assert (Hk : 0 ≤ p / 3) by (apply Z.div_pos; lia).
  rewrite Hpk, Z.pow_add_r, Z.pow_mul_r, Z.pow_1_r in Hfermat by lia.
  rewrite Z.mul_mod, <- Z.mod_pow_l, Hcube, Z.pow_1_l in Hfermat by lia.
  rewrite (Z.mod_small 1 p), Z.mul_1_l, Z.mod_mod in Hfermat by lia.
  assert (H3div : (p | 3)).
  { rewrite <- (Z.mod_small 1 p) in Hfermat by lia.
    apply mod_eq_divide in Hfermat; [| lia].
    destruct Hfermat as [t Ht]. destruct Hdiv as [k Hk'].
    exists (k - t * (x + 2)).
    replace 3 with (x * x + x + 1 - (x - 1) * (x + 2)) by ring.
    rewrite Hk', Ht. ring. }
  pose proof (Z.divide_pos_le p 3 ltac:(lia) H3div) as Hle.
  assert (p = 2 ∨ p = 3) as [-> | ->] by lia.
  - destruct H3div as [k Hk']. lia.
  - vm_compute in H3. discriminate.
Qed.

Lemma sbox_apply_injective (p : Z) (x y : list Z) :
  prime p → p mod 3 = 2 → field_triple p x → field_triple p y →
  SBox.apply {| SBox.p_ := p |} x = SBox.apply {| SBox.p_ := p |} y → x = y.
Proof.
  intros Hprime H3.
  pose proof (Z.prime_ge_2 p (proj2 (prime_alt p) Hprime)) as Hp2.
  intros (x0 & x1 & x2 & -> & Hx0 & Hx1 & Hx2)
         (y0 & y1 & y2 & -> & Hy0 & Hy1 & Hy2) Heq.
  unfold Spec.field_element in *.
  rewrite !SBox_apply_spec in Heq by (simpl; lia).
  unfold Spec.sbox in Heq. cbn [SBox.p_] in Heq.
  injection Heq as E0 E1 E2.
  rewrite !Z.mod_small in E0 by lia. subst y0.
  apply mod_eq_divide in E1; [| lia]. apply mod_eq_divide in E2; [| lia].
  assert (Hb : (p | (x0 * x0 + x0 + 1) * (x2 - y2))).
  { destruct E1 as [k1 Hk1]. destruct E2 as [k2 Hk2].
    exists (x0 * k1 + k2).
    replace ((x0 * x0 + x0 + 1) * (x2 - y2))
      with (x0 * (x0 * x2 + x1 - (x0 * y2 + y1))
            + (- x0 * x1 + x0 * x2 + x2 - (- x0 * y1 + x0 * y2 + y2))) by ring.
    rewrite Hk1, Hk2. ring. }
  apply Z.divide_prime_mul in Hb; [| by apply prime_alt].
  destruct Hb as [Hroot | Hb]; [by apply no_cube_root_of_unity in Hroot |].
  apply divide_small in Hb; [| lia].
  assert (y2 = x2) as -> by lia.
  assert (Ha : (p | x1 - y1)).
  { destruct E1 as [k1 Hk1]. exists k1. lia. }
  apply divide_small in Ha; [| lia].
  assert (y1 = x1) as -> by lia. reflexivity.
Qed.

(** X7: for a prime [p] congruent to 2 modulo 3 the constructor accepts
    [p] and [SBox::apply] is injective on the triples of field elements
    of [F_p]: it permutes [F_p^3]. *)
Theorem sbox_injective (p : Z) :
  prime p → p mod 3 = 2 →
  ∃ sb, SBox.new p = Ok sb
    ∧ ∀ x y, field_triple p x → field_triple p y →
             SBox.apply sb x = SBox.apply sb y → x = y.
Proof.
  intros Hprime H3.
  pose proof (Z.prime_ge_2 p (proj2 (prime_alt p) Hprime)) as Hp2.
  exists {| SBox.p_ := p |}. split.
  { apply SBox_new_ok, is_p_2mod3_spec; [lia | done]. }
  intros x y. by apply sbox_apply_injective.
Qed.

Lemma field_triple_intro (p x0 x1 x2 : Z) :
  0 ≤ x0 < p → 0 ≤ x1 < p → 0 ≤ x2 < p → field_triple p [x0; x1; x2].
Proof. intros. exists x0, x1, x2. done. Qed.

Lemma prime_5 : prime 5.
Proof. apply is_prime_b_sound. vm_compute. reflexivity. Qed.

Lemma sbox_injective_witness :
  ∃ sb, SBox.new 65579 = Ok sb
    ∧ ∀ x y, field_triple 65579 x → field_triple 65579 y →
             SBox.apply sb x = SBox.apply sb y → x = y.
Proof.
  apply (sbox_injective 65579); [apply prime_65579 | reflexivity].
Defined.

(** X8: above 1000 [is_permutation] only evaluates
    [(1 + p + p * p) mod p], which is 1: for every composite modulus
    [7 * k] with [k ≥ 143] that the constructor accepts it returns [true]
    although [SBox::apply] maps the distinct triples [(2, 5k, k)] and
    [(2, 0, 0)] to the same output. *)
Theorem is_permutation_composite (k : Z) :
  143 ≤ k → (7 * k) mod 3 = 2 →
  ∃ sb, SBox.new (7 * k) = Ok sb
    ∧ SBox.is_permutation sb = Ok true
    ∧ field_triple (7 * k) [2; 5 * k; k]
    ∧ field_triple (7 * k) [2; 0; 0]
    ∧ [2; 5 * k; k] ≠ [2; 0; 0]
    ∧ SBox.apply sb [2; 5 * k; k] = SBox.apply sb [2; 0; 0].
Proof.
  intros Hk H3. exists {| SBox.p_ := 7 * k |}.
  split; [apply SBox_new_ok, is_p_2mod3_spec; [lia | done] |].
  split.
  { unfold SBox.is_permutation. cbn [SBox.p_].
    destruct (Z.ltb_spec 1000 (7 * k)); [| lia].
    rewrite mod_spec by lia.
    replace (1 + 7 * k + 7 * k * (7 * k)) with (1 + (1 + 7 * k) * (7 * k)) by ring.
    rewrite Z.mod_add, Z.mod_small by lia. reflexivity. }
  split; [apply field_triple_intro; lia |].
  split; [apply field_triple_intro; lia |].
  split; [intros H; injection H; lia |].
  rewrite !SBox_apply_spec by (simpl; lia).
  unfold Spec.sbox. cbn [SBox.p_]. f_equal. f_equal. f_equal; [| f_equal].
  - apply (cong_mod _ _ _ 1); [lia | ring].
  - apply (cong_mod _ _ _ (-1)); [lia | ring].
Qed.

Lemma is_permutation_composite_witness :
  ∃ sb, SBox.new 1022 = Ok sb
    ∧ SBox.is_permutation sb = Ok true
    ∧ field_triple 1022 [2; 730; 146]
    ∧ field_triple 1022 [2; 0; 0]
    ∧ [2; 730; 146] ≠ [2; 0; 0]
    ∧ SBox.apply sb [2; 730; 146] = SBox.apply sb [2; 0; 0].
Proof.
  apply (is_permutation_composite 146); [lia | reflexivity].
Defined.

(** ** The exhaustive branch of [is_permutation] *)

Lemma all_inputs_elem (p : Z) (x : list Z) :
  x ∈ SBox.all_inputs p ↔ field_triple p x.
Proof.
  unfold SBox.all_inputs, field_triple, Spec.field_element. split.
  - intros (x0 & (x1 & (x2 & Hx & H2)%list_elem_of_bind & H1)%list_elem_of_bind
              & H0)%list_elem_of_bind.
    apply list_elem_of_singleton in Hx. apply elem_of_seqZ in H0, H1, H2.
    exists x0, x1, x2. split; [done |]. lia.
  - intros (x0 & x1 & x2 & -> & H0 & H1 & H2).
    apply list_elem_of_bind. exists x0. split; [| apply elem_of_seqZ; lia].
    apply list_elem_of_bind. exists x1. split; [| apply elem_of_seqZ; lia].
    apply list_elem_of_bind. exists x2. split; [| apply elem_of_seqZ; lia].
    by apply list_elem_of_singleton.
Qed.

Lemma all_inputs_NoDup (p : Z) : NoDup (SBox.all_inputs p).
Proof.
  unfold SBox.all_inputs.
  apply NoDup_bind; [| | apply NoDup_seqZ].
  - intros a a' y _ _
      (b & (c & ->%list_elem_of_singleton & _)%list_elem_of_bind & _)%list_elem_of_bind
      (b' & (c' & E%list_elem_of_singleton & _)%list_elem_of_bind & _)%list_elem_of_bind.
    by injection E.
  - intros a _. apply NoDup_bind; [| | apply NoDup_seqZ].
    + intros b b' y _ _
        (c & ->%list_elem_of_singleton & _)%list_elem_of_bind
        (c' & E%list_elem_of_singleton & _)%list_elem_of_bind.
      by injection E.
    + intros b _. apply NoDup_bind; [| | apply NoDup_seqZ].
      * intros c c' y _ _ ->%list_elem_of_singleton E%list_elem_of_singleton.
        by injection E.
      * intros c _. apply NoDup_singleton.
Qed.

Lemma length_bind_const {A B} (f : A → list B) (l : list A) (n : nat) :
  (∀ x, length (f x) = n) → length (l ≫= f) = (length l * n)%nat.
Proof.
  intros Hf. induction l as [| x l IH]; [done |].
  cbn. rewrite length_app, Hf. cbn in IH. rewrite IH. lia.
Qed.

Lemma all_inputs_length (p : Z) :
  0 ≤ p → Z.of_nat (length (SBox.all_inputs p)) = p * p * p.
Proof.
  intros Hp. unfold SBox.all_inputs.
  rewrite (length_bind_const _ _ (Z.to_nat p * Z.to_nat p)).
  - rewrite length_seqZ. lia.
  - intros x0. rewrite (length_bind_const _ _ (Z.to_nat p)).
    + by rewrite length_seqZ.
    + intros x1. rewrite (length_bind_const _ _ 1%nat); [| done].
      rewrite length_seqZ. lia.
Qed.

Lemma sbox_out_apply (sb : SBox.t) (x : list Z) :
  length x = 3%nat → SBox.apply sb x = Ok (sbox_out sb x).
Proof.
  intros Hx. destruct x as [| x0 [| x1 [| x2 [| ? ?]]]]; try discriminate.
  reflexivity.
Qed.

(** The scan: what it returns from any position of the nested loops. *)
Lemma scan_spec (sb : SBox.t) (inputs : list (list Z))
    (outputs : gset (list Z)) :
  Forall (λ x, length x = 3%nat) inputs →
  ∃ b, SBox.scan sb inputs outputs = Ok b
    ∧ (b = true
       ↔ NoDup (sbox_out sb <$> inputs)
         ∧ (∀ x, x ∈ inputs → sbox_out sb x ∉ outputs)
         ∧ Z.of_nat (size outputs + length inputs)
           = SBox.p_ sb * SBox.p_ sb * SBox.p_ sb).
Proof.
  revert outputs. induction inputs as [| x rest IH]; intros outputs Hlen.
  - cbn [SBox.scan]. eexists. split; [reflexivity |].
    rewrite bool_decide_eq_true, Nat.add_0_r. split; [| tauto].
    intros Hsize. split; [constructor |]. split; [| done].
    intros x Hx. by apply elem_of_nil in Hx.
  - apply Forall_cons in Hlen as [Hx Hrest].
    cbn [SBox.scan]. rewrite (sbox_out_apply sb x Hx). cbn [rbind].
    case_bool_decide as Hin.
    + exists false. split; [done |]. split; [done |].
      intros (_ & Hnot & _). exfalso. apply (Hnot x); [left | done].
    + destruct (IH ({[sbox_out sb x]} ∪ outputs) Hrest) as (b & Hrun & Hb).
      exists b. split; [exact Hrun |]. rewrite Hb.
      rewrite fmap_cons, NoDup_cons, list_elem_of_fmap.
      rewrite size_union, size_singleton by (by apply disjoint_singleton_l).
      cbn [length].
      split.
      * intros (Hnd & Hnot & Hsize). split; [split; [| done] |].
        -- intros (y & Hy & Hyin). apply (Hnot y Hyin).
           by apply elem_of_union_l, elem_of_singleton.
        -- split; [| lia].
           intros y [-> | Hy]%elem_of_cons; [done |].
           intros Ho. by apply (Hnot y Hy), elem_of_union_r.
      * intros ((Hfresh & Hnd) & Hnot & Hsize). split; [done |]. split; [| lia].
        intros y Hy. apply not_elem_of_union. split.
        -- intros Heq%elem_of_singleton. apply Hfresh. by exists y.
        -- apply Hnot. by right.
Qed.

Lemma NoDup_fmap_inj_on {A B} (f : A → B) (l : list A) :
  NoDup l →
  NoDup (f <$> l) ↔ ∀ x y, x ∈ l → y ∈ l → f x = f y → x = y.
Proof.
  intros Hl. split; [| intros; by apply NoDup_fmap_2_strong].
  induction Hl as [| a l Ha Hl IH]; intros Hnd x y Hx Hy Hxy.
  - by apply elem_of_nil in Hx.
  - rewrite fmap_cons in Hnd. apply NoDup_cons in Hnd as [Hfa Hnd].
    apply elem_of_cons in Hx as [-> | Hx]; apply elem_of_cons in Hy as [-> | Hy].
    + done.
    + exfalso. apply Hfa. rewrite Hxy. by apply list_elem_of_fmap_2.
    + exfalso. apply Hfa. rewrite <- Hxy. by apply list_elem_of_fmap_2.
    + by apply IH.
Qed.

Lemma is_permutation_scan (sb : SBox.t) :
  0 < SBox.p_ sb ≤ 1000 →
  SBox.is_permutation sb = Ok true
  ↔ ∀ x y, field_triple (SBox.p_ sb) x → field_triple (SBox.p_ sb) y →
           SBox.apply sb x = SBox.apply sb y → x = y.
Proof.
  intros Hp. unfold SBox.is_permutation.
  destruct (Z.ltb_spec 1000 (SBox.p_ sb)); [lia |].
  destruct (scan_spec sb (SBox.all_inputs (SBox.p_ sb)) ∅)
    as (b & -> & Hb).
  { apply Forall_forall. intros x (x0 & x1 & x2 & -> & _)%all_inputs_elem.
    reflexivity. }
  rewrite size_empty, Nat.add_0_l, all_inputs_length in Hb by lia.
  split.
  - intros [= Htrue]. apply Hb in Htrue as (Hnd & _ & _).
    intros x y Hx Hy Heq.
    pose proof (proj1 (NoDup_fmap_inj_on (sbox_out sb) _
                         (all_inputs_NoDup (SBox.p_ sb))) Hnd) as Hinj.
    apply Hinj; [by apply all_inputs_elem | by apply all_inputs_elem |].
    unfold sbox_out. by rewrite Heq.
  - intros Hinj. f_equal. apply Hb.
    split; [| split; [intros ? _; apply not_elem_of_empty | done]].
    apply NoDup_fmap_inj_on; [apply all_inputs_NoDup |].
    intros x y Hx%all_inputs_elem Hy%all_inputs_elem Heq.
    apply Hinj; [done | done |].
    destruct Hx as (x0 & x1 & x2 & -> & _), Hy as (y0 & y1 & y2 & -> & _).
    unfold sbox_out in Heq. simpl in *. by rewrite Heq.
Qed.

Lemma is_permutation_returns (sb : SBox.t) :
  0 < SBox.p_ sb ≤ 1000 → ∃ b, SBox.is_permutation sb = Ok b.
Proof.
  intros Hp. unfold SBox.is_permutation.
  destruct (Z.ltb_spec 1000 (SBox.p_ sb)); [lia |].
  destruct (scan_spec sb (SBox.all_inputs (SBox.p_ sb)) ∅)
    as (b & -> & _); [| by exists b].
  apply Forall_forall. intros x (x0 & x1 & x2 & -> & _)%all_inputs_elem.
  reflexivity.
Qed.

(** X9: for a modulus of at most 1000 [is_permutation] runs the three
    nested loops over all triples: it returns a boolean, never an
    exception, and the boolean is [true] exactly when [SBox::apply] is
    injective on the triples of elements of [0, p). *)
Theorem is_permutation_exhaustive (sb : SBox.t) :
  0 < SBox.p_ sb ≤ 1000 →
  ∃ b, SBox.is_permutation sb = Ok b
    ∧ (b = true
       ↔ ∀ x y, field_triple (SBox.p_ sb) x → field_triple (SBox.p_ sb) y →
                SBox.apply sb x = SBox.apply sb y → x = y).
Proof.
  intros Hp. destruct (is_permutation_returns sb Hp) as [b Hb].
  exists b. split; [exact Hb |].
  rewrite <- (is_permutation_scan sb Hp), Hb.
  split; [by intros -> | by intros [= ->]].
Qed.

Lemma is_permutation_exhaustive_witness :
  ∃ b, SBox.is_permutation {| SBox.p_ := 5 |} = Ok b
    ∧ (b = true
       ↔ ∀ x y, field_triple 5 x → field_triple 5 y →
                SBox.apply {| SBox.p_ := 5 |} x
                = SBox.apply {| SBox.p_ := 5 |} y → x = y).
Proof.
  apply (is_permutation_exhaustive {| SBox.p_ := 5 |}). cbn [SBox.p_]. lia.
Defined.

(** ** [is_permutation] on primes of any size *)

Lemma is_permutation_large (sb : SBox.t) :
  1000 < SBox.p_ sb → SBox.is_permutation sb = Ok true.
Proof.
  intros Hp. unfold SBox.is_permutation.
  destruct (Z.ltb_spec 1000 (SBox.p_ sb)); [| lia].
  rewrite mod_spec by lia.
  replace (1 + SBox.p_ sb + SBox.p_ sb * SBox.p_ sb)
    with (1 + (1 + SBox.p_ sb) * SBox.p_ sb) by ring.
  rewrite Z.mod_add, Z.mod_small by lia. reflexivity.
Qed.

(** X10: for every prime [p] congruent to 2 modulo 3, of either size,
    the constructor accepts [p] and [is_permutation] returns [true]. *)
Theorem is_permutation_prime (p : Z) :
  prime p → p mod 3 = 2 →
  ∃ sb, SBox.new p = Ok sb ∧ SBox.is_permutation sb = Ok true.
Proof.
  intros Hprime H3.
  pose proof (Z.prime_ge_2 p (proj2 (prime_alt p) Hprime)) as Hp2.
  exists {| SBox.p_ := p |}.
  split; [apply SBox_new_ok, is_p_2mod3_spec; [lia | done] |].
  destruct (Z.le_gt_cases p 1000).
  - apply is_permutation_scan; [cbn [SBox.p_]; lia |].
    cbn [SBox.p_]. intros x y. by apply sbox_apply_injective.
  - by apply is_permutation_large.
Qed.

Lemma is_permutation_prime_witness :
  ∃ sb, SBox.new 5 = Ok sb ∧ SBox.is_permutation sb = Ok true.
Proof. apply (is_permutation_prime 5); [apply prime_5 | reflexivity]. Defined.


(** ** The S-box layer and its static *)

(** X11: [apply_sbox_layer] and its function-local static.  A state not
    of 36 elements throws [invalid_argument] and leaves the static as it
    is.  With the static not yet initialised, a [p] that the constructor
    of [SBox] rejects throws [invalid_argument] and the static stays
    uninitialised.  Once the static is initialised the argument [p] has no
    influence on the result and the static is never replaced.  A call
    initialises the static only with the [p] it was given, and only when
    the state has 36 elements and the constructor accepts [p]. *)
Theorem apply_sbox_layer_static (state : list Z) (p : Z) :
  (length state ≠ 36%nat →
   ∀ st, apply_sbox_layer state p st = (Throw invalid_argument, st))
  ∧ (is_p_2mod3 p = false →
     apply_sbox_layer state p None = (Throw invalid_argument, None))
  ∧ (∀ sb p',
       apply_sbox_layer state p (Some sb) = apply_sbox_layer state p' (Some sb)
       ∧ (apply_sbox_layer state p (Some sb)).2 = Some sb)
  ∧ ((apply_sbox_layer state p None).2 = None
     ∨ (apply_sbox_layer state p None).2 = Some {| SBox.p_ := p |}
       ∧ is_p_2mod3 p = true ∧ length state = 36%nat).
Proof.
  unfold apply_sbox_layer, SBox.new.
  destruct (Nat.eqb_spec (length state) 36) as [Hlen | Hlen]; cbn [negb].
  - split; [done |]. split; [by intros -> |]. split; [done |].
    destruct (is_p_2mod3 p); [right | left]; done.
  - split; [done |]. split; [done |]. split; [done |]. by left.
Qed.


(** ** The Four-Russians table *)

Lemma nth_map_seq {A} (f : nat → A) (n i : nat) (d : A) :
  (i < n)%nat → nth i (map f (seq 0 n)) d = f i.
Proof.
  intros Hi. rewrite (nth_indep _ d (f 0%nat)) by (by rewrite length_map, length_seq).
  rewrite (map_nth f (seq 0 n) 0%nat i), seq_nth by done. reflexivity.
Qed.

Lemma nth_map_seqZ {A} (f : Z → A) (n i : Z) (d : A) :
  0 ≤ i < n → nth (Z.to_nat i) (map f (seqZ 0 n)) d = f i.
Proof.
  intros Hi. unfold seqZ. rewrite <- list_fmap_compose.
  change (list_fmap nat A) with (@map nat A).
  rewrite nth_map_seq by lia. simpl. f_equal. lia.
Qed.

Lemma land_bit (mask : Z) (b : nat) :
  (Z.land mask (Z.shiftl 1 (Z.of_nat b)) =? 0)
  = negb (Z.testbit mask (Z.of_nat b)).
Proof.
  rewrite Z.shiftl_1_l.
  destruct (Z.testbit mask (Z.of_nat b)) eqn:Hbit; cbn [negb].
  - apply Z.eqb_neq. intros H0.
    apply (f_equal (λ z, Z.testbit z (Z.of_nat b))) in H0.
    rewrite Z.land_spec, Hbit, Z.pow2_bits_true, Z.bits_0 in H0 by lia.
    discriminate.
  - apply Z.eqb_eq. apply Z.bits_inj'. intros n Hn.
    rewrite Z.land_spec, Z.bits_0, Z.pow2_bits_eqb by lia.
    destruct (Z.eqb_spec (Z.of_nat b) n) as [<- | ?].
    + by rewrite Hbit.
    + apply andb_false_r.
Qed.

Lemma column_vector_bit (m : list (list Z)) (col : nat) (row : Z) :
  0 ≤ row →
  Z.testbit (LinearLayer.column_vector m col) row
  = bool_decide (row < 36)
    && (LinearLayer.entry m (Z.to_nat row) col =? 1).
Proof.
  intros Hrow. unfold LinearLayer.column_vector.
  assert (Hgen : ∀ (rows : list nat) (acc : Z),
    Z.testbit
      (fold_left (λ col_vec r,
                    if LinearLayer.entry m r col =? 1
                    then Z.setbit col_vec (Z.of_nat r) else col_vec)
                 rows acc) row
    = Z.testbit acc row
      || bool_decide (Z.to_nat row ∈ rows)
         && (LinearLayer.entry m (Z.to_nat row) col =? 1)).
  { induction rows as [| r rows IH]; intros acc.
    - cbn [fold_left]. rewrite bool_decide_eq_false_2 by apply not_elem_of_nil.
      by rewrite orb_false_r.
    - cbn [fold_left]. rewrite IH.
      destruct (decide (Z.to_nat row = r)) as [<- | Hne].
      + rewrite (bool_decide_eq_true_2 (_ ∈ _ :: _)) by left.
        destruct (LinearLayer.entry m (Z.to_nat row) col =? 1) eqn:He.
        * rewrite Z.setbit_eqb, Z2Nat.id, Z.eqb_refl by lia.
          cbn [orb andb]. by destruct (Z.testbit acc row).
        * rewrite !andb_false_r. by destruct (Z.testbit acc row).
      + assert (Hmem : bool_decide (Z.to_nat row ∈ r :: rows)
                       = bool_decide (Z.to_nat row ∈ rows)).
        { apply bool_decide_ext. rewrite elem_of_cons.
          split; [by intros [? | ?] | by right]. }
        rewrite Hmem.
        destruct (LinearLayer.entry m r col =? 1); [| done].
        rewrite Z.setbit_eqb by lia.
        destruct (Z.eqb_spec (Z.of_nat r) row); [lia | done]. }
  rewrite Hgen, Z.bits_0. cbn [orb]. f_equal.
  apply bool_decide_ext. rewrite elem_of_seq. lia.
Qed.

Lemma table_bit (m : list (list Z)) (group : nat)
    (mask row : Z) :
  (group < 9)%nat → 0 ≤ mask < 16 → 0 ≤ row →
  let entry b := LinearLayer.entry m (Z.to_nat row) (group * 4 + b) =? 1 in
  Z.testbit
    (nth (Z.to_nat mask)
         (nth group (LinearLayer.precompute_four_russians m) []) 0) row
  = bool_decide (row < 36)
    && xorb (xorb (xorb (Z.testbit mask 0 && entry 0%nat)
                        (Z.testbit mask 1 && entry 1%nat))
                  (Z.testbit mask 2 && entry 2%nat))
            (Z.testbit mask 3 && entry 3%nat).
Proof.
  intros Hg Hmask Hrow entry.
  unfold LinearLayer.precompute_four_russians.
  change (36 / 4)%nat with 9%nat.
  rewrite nth_map_seq by done.
  change (Z.shiftl 1 (Z.of_nat 4)) with 16.
  rewrite nth_map_seqZ by done.
  cbn [seq fold_left].
  rewrite !land_bit. change (Z.of_nat 0) with 0. change (Z.of_nat 1) with 1.
  change (Z.of_nat 2) with 2. change (Z.of_nat 3) with 3.
  destruct (Z.testbit mask 0), (Z.testbit mask 1), (Z.testbit mask 2),
    (Z.testbit mask 3); cbn [negb andb xorb];
    rewrite ?Z.lxor_spec, ?column_vector_bit, ?Z.bits_0 by done;
    subst entry; cbv beta;
    destruct (bool_decide (row < 36)); cbn [andb xorb];
    repeat match goal with
           | |- context [LinearLayer.entry ?a ?b ?c =? 1] =>
               destruct (LinearLayer.entry a b c =? 1)
           end; reflexivity.
Qed.

(** X12: [precompute_four_russians] builds 9 groups of 16 entries, the
    entry of mask 0 being 0; bit [row] of the entry of [group] and [mask]
    is the parity of the matrix entries [matrix_[row][4 * group + b]] over
    the bits [b] set in [mask], for [row < 36], and no bit from 36 on is
    set. *)
Theorem four_russians_table_bits (m : list (list Z)) (group : nat)
    (mask row : Z) :
  (group < 9)%nat → 0 ≤ mask < 16 → 0 ≤ row →
  let table := LinearLayer.precompute_four_russians m in
  let entry b := LinearLayer.entry m (Z.to_nat row) (group * 4 + b) =? 1 in
  length table = 9%nat
  ∧ length (nth group table []) = 16%nat
  ∧ nth 0 (nth group table []) 0 = 0
  ∧ Z.testbit (nth (Z.to_nat mask) (nth group table []) 0) row
    = bool_decide (row < 36)
      && xorb (xorb (xorb (Z.testbit mask 0 && entry 0%nat)
                          (Z.testbit mask 1 && entry 1%nat))
                    (Z.testbit mask 2 && entry 2%nat))
              (Z.testbit mask 3 && entry 3%nat).
Proof.
  intros Hg Hmask Hrow table entry.
  split; [| split; [| split]].
  - subst table. unfold LinearLayer.precompute_four_russians.
    by rewrite length_map, length_seq.
  - subst table. unfold LinearLayer.precompute_four_russians.
    change (36 / 4)%nat with 9%nat. rewrite nth_map_seq by done.
    by rewrite length_map, length_seqZ.
  - subst table. unfold LinearLayer.precompute_four_russians.
    change (36 / 4)%nat with 9%nat. rewrite nth_map_seq by done.
    reflexivity.
  - by apply table_bit.
Qed.

Lemma four_russians_table_bits_witness :
  let table :=
    LinearLayer.precompute_four_russians
      (LinearLayer.matrix_ the_linear_layer) in
  let entry b :=
    LinearLayer.entry (LinearLayer.matrix_ the_linear_layer) (Z.to_nat 7)
      (2 * 4 + b) =? 1 in
  length table = 9%nat
  ∧ length (nth 2 table []) = 16%nat
  ∧ nth 0 (nth 2 table []) 0 = 0
  ∧ Z.testbit (nth (Z.to_nat 5) (nth 2 table []) 0) 7
    = bool_decide (7 < 36)
      && xorb (xorb (xorb (Z.testbit 5 0 && entry 0%nat)
                          (Z.testbit 5 1 && entry 1%nat))
                    (Z.testbit 5 2 && entry 2%nat))
              (Z.testbit 5 3 && entry 3%nat).
Proof.
  apply (four_russians_table_bits (LinearLayer.matrix_ the_linear_layer)
           2 5 7); lia.
Defined.

(** ** What [apply] adds up *)

Lemma fold_left_selected {A} (F : A → nat → A) (test : nat → bool)
    (idx : nat → nat) (l : list nat) (acc : A) :
  fold_left (λ acc i, if test i then F acc (idx i) else acc) l acc
  = fold_left F (map idx (filter (λ i, Is_true (test i)) l)) acc.
Proof.
  revert acc. induction l as [| i l IH]; intros acc; [done |].
  cbn [fold_left]. rewrite filter_cons.
  destruct (test i) eqn:Ht.
  - destruct (decide _) as [_ | Hn]; [| by destruct Hn].
    cbn [map fold_left]. apply IH.
  - destruct (decide _) as [Hy | _]; [by destruct Hy |]. apply IH.
Qed.

Lemma fold_left_flat_map {A B C} (F : A → C → A) (sel : B → list C)
    (l : list B) (acc : A) :
  fold_left (λ acc g, fold_left F (sel g) acc) l acc
  = fold_left F (flat_map sel l) acc.
Proof.
  revert acc. induction l as [| g l IH]; intros acc; [done |].
  cbn [fold_left flat_map]. by rewrite fold_left_app, IH.
Qed.

Lemma fold_left_pointwise {A B} (f g : A → B → A) (l : list B) (acc : A) :
  (∀ a b, f a b = g a b) → fold_left f l acc = fold_left g l acc.
Proof.
  intros Hfg. revert acc. induction l as [| b l IH]; intros acc; [done |].
  cbn [fold_left]. by rewrite Hfg, IH.
Qed.

Lemma apply_rows_selected (ll : LinearLayer.t) (state : list Z) (p : Z) :
  LinearLayer.apply_rows ll state p
  = map (λ row, fold_left (λ acc k, mod_ (acc + nth k state 0) p)
                  (selected ll row) 0)
        (seq 0 36).
Proof.
  unfold LinearLayer.apply_rows, selected. cbv zeta.
  apply map_ext. intros row.
  rewrite <- fold_left_flat_map.
  apply fold_left_pointwise. intros acc group.
  apply (fold_left_selected (λ acc k, mod_ (acc + nth k state 0) p)).
Qed.

Lemma fold_add_mod (p : Z) (s : nat → Z) (idx : list nat) (acc : Z) :
  0 < p → 0 ≤ acc < p →
  fold_left (λ acc k, mod_ (acc + s k) p) idx acc
  = (acc + foldr (λ k r, s k + r) 0 idx) mod p.
Proof.
  intros Hp. revert acc. induction idx as [| k idx IH]; intros acc Hacc.
  - cbn. rewrite Z.add_0_r, Z.mod_small; done.
  - cbn [fold_left foldr]. rewrite mod_spec by done.
    rewrite IH by (apply Z.mod_pos_bound; lia).
    rewrite Zplus_mod_idemp_l. f_equal. lia.
Qed.

Lemma apply_rows_sum (ll : LinearLayer.t) (state : list Z) (p : Z) :
  0 < p →
  LinearLayer.apply_rows ll state p
  = map (λ row, sum_at state (selected ll row) mod p) (seq 0 36).
Proof.
  intros Hp. rewrite apply_rows_selected. apply map_ext. intros row.
  rewrite (fold_add_mod p (λ k, nth k state 0)) by lia. reflexivity.
Qed.

Lemma selected_bound (ll : LinearLayer.t) (row : nat) :
  Forall (λ k, (k < 36)%nat) (selected ll row).
Proof.
  unfold selected. apply List.Forall_forall.
  intros k (group & Hg%in_seq & Hk)%in_flat_map.
  apply in_map_iff in Hk as (i & <- & _).
  pose proof (Nat.mod_upper_bound i 4 ltac:(lia)). lia.
Qed.

Lemma nth_zip_with {A B C} (f : A → B → C) (u : list A) (v : list B)
    (k : nat) (du : A) (dv : B) (d : C) :
  (k < length u)%nat → (k < length v)%nat →
  nth k (zip_with f u v) d = f (nth k u du) (nth k v dv).
Proof.
  revert v k. induction u as [| x u IH]; intros [| y v] [| k] Hu Hv;
    cbn in *; try lia; [done |].
  apply IH; lia.
Qed.

Lemma sum_at_combination (p a b : Z) (u v : list Z) (idx : list nat) :
  0 < p → length u = 36%nat → length v = 36%nat →
  Forall (λ k, (k < 36)%nat) idx →
  sum_at (zip_with (λ x y, (a * x + b * y) mod p) u v) idx mod p
  = (a * (sum_at u idx mod p) + b * (sum_at v idx mod p)) mod p.
Proof.
  intros Hp Hu Hv Hidx.
  assert (Hcong : ∃ t, sum_at (zip_with (λ x y, (a * x + b * y) mod p) u v) idx
                       = a * sum_at u idx + b * sum_at v idx + t * p).
  { induction Hidx as [| k idx Hk Hidx IH].
    - exists 0. unfold sum_at. cbn [foldr]. lia.
    - destruct IH as [t IH]. unfold sum_at in *. cbn [foldr]. rewrite IH.
      rewrite (nth_zip_with _ u v k 0 0 0) by lia.
      pose proof (Z.div_mod (a * nth k u 0 + b * nth k v 0) p ltac:(lia)) as Hdm.
      exists (t - (a * nth k u 0 + b * nth k v 0) / p). lia. }
  destruct Hcong as [t Ht].
  pose proof (Z.div_mod (sum_at u idx) p ltac:(lia)) as Hdu.
  pose proof (Z.div_mod (sum_at v idx) p ltac:(lia)) as Hdv.
  apply (cong_mod p _ _ (t + a * (sum_at u idx / p) + b * (sum_at v idx / p)) Hp).
  rewrite Ht. lia.
Qed.

Lemma zip_with_map {A B C D} (f : B → C → D) (g : A → B) (h : A → C)
    (l : list A) :
  zip_with f (map g l) (map h l) = map (λ x, f (g x) (h x)) l.
Proof. induction l as [| x l IH]; [done |]. cbn. by rewrite IH. Qed.

(** X13: [LinearLayer::apply] is linear over the integers modulo [p]: on
    36-element states it returns, for [(a * u + b * v) mod p], the same
    combination of its results for [u] and [v]. *)
Theorem linear_layer_linear (ll : LinearLayer.t) (p a b : Z) (u v : list Z) :
  0 < p → length u = 36%nat → length v = 36%nat →
  let comb := zip_with (λ x y, (a * x + b * y) mod p) in
  ∃ Lu Lv,
    LinearLayer.apply ll u p = Ok Lu
    ∧ LinearLayer.apply ll v p = Ok Lv
    ∧ LinearLayer.apply ll (comb u v) p = Ok (comb Lu Lv).
Proof.
  intros Hp Hu Hv comb.
  exists (LinearLayer.apply_rows ll u p), (LinearLayer.apply_rows ll v p).
  split; [by apply LinearLayer_apply_ok |].
  split; [by apply LinearLayer_apply_ok |].
  rewrite LinearLayer_apply_ok by (unfold comb; rewrite length_zip_with; lia).
  f_equal. rewrite !apply_rows_sum by done. unfold comb.
  rewrite zip_with_map. apply map_ext. intros row.
  apply sum_at_combination; [done | done | done | apply selected_bound].
Qed.

Lemma linear_layer_linear_witness :
  let comb := zip_with (λ x y, (3 * x + 5 * y) mod 65579) in
  ∃ Lu Lv,
    LinearLayer.apply the_linear_layer e0 65579 = Ok Lu
    ∧ LinearLayer.apply the_linear_layer test_key 65579 = Ok Lv
    ∧ LinearLayer.apply the_linear_layer (comb e0 test_key) 65579
      = Ok (comb Lu Lv).
Proof.
  apply (linear_layer_linear the_linear_layer 65579 3 5 e0 test_key);
    [lia | reflexivity | reflexivity].
Defined.

(** ** The closed form *)

Lemma row_mask_bits (m : list (list Z)) (row group : nat) :
  0 ≤ row_mask m row group < 16
  ∧ Z.testbit (row_mask m row group) 0
    = (LinearLayer.entry m row (group * 4 + 0) =? 1)
  ∧ Z.testbit (row_mask m row group) 1
    = (LinearLayer.entry m row (group * 4 + 1) =? 1)
  ∧ Z.testbit (row_mask m row group) 2
    = (LinearLayer.entry m row (group * 4 + 2) =? 1)
  ∧ Z.testbit (row_mask m row group) 3
    = (LinearLayer.entry m row (group * 4 + 3) =? 1).
Proof.
  unfold row_mask. cbn [seq fold_left].
  destruct (LinearLayer.entry m row (group * 4 + 0) =? 1),
    (LinearLayer.entry m row (group * 4 + 1) =? 1),
    (LinearLayer.entry m row (group * 4 + 2) =? 1),
    (LinearLayer.entry m row (group * 4 + 3) =? 1);
    vm_compute; repeat split; intros; discriminate.
Qed.

Lemma flat_map_pointwise {A B} (f g : A → list B) (l : list A) :
  (∀ x, In x l → f x = g x) → flat_map f l = flat_map g l.
Proof.
  induction l as [| x l IH]; intros Hfg; [done |].
  cbn [flat_map]. rewrite Hfg by (by left).
  rewrite IH; [done |]. intros y Hy. apply Hfg. by right.
Qed.

Lemma filter_pointwise {A} (P Q : A → Prop) `{∀ x, Decision (P x)}
    `{∀ x, Decision (Q x)} (l : list A) :
  (∀ x, In x l → P x ↔ Q x) → filter P l = filter Q l.
Proof.
  induction l as [| x l IH]; intros HPQ; [done |].
  rewrite !filter_cons.
  rewrite IH by (intros y Hy; apply HPQ; by right).
  specialize (HPQ x (or_introl eq_refl)).
  destruct (decide (P x)), (decide (Q x)); tauto || done.
Qed.

Lemma selected_coupled (m : list (list Z)) (row : nat) :
  selected {| LinearLayer.matrix_ := m;
              LinearLayer.four_russians_table_ :=
                LinearLayer.precompute_four_russians m |} row
  = coupled m row.
Proof.
  unfold selected, coupled.
  cbn [LinearLayer.matrix_ LinearLayer.four_russians_table_].
  apply flat_map_pointwise. intros group Hg%in_seq. cbv zeta. f_equal.
  apply filter_pointwise. intros i Hi%in_seq.
  destruct (row_mask_bits m row group) as (Hmask & H0 & H1 & H2 & H3).
  rewrite table_bit by lia. cbv zeta.
  rewrite H0, H1, H2, H3, Nat2Z.id.
  rewrite bool_decide_eq_true_2 by lia. cbn [andb].
  unfold parity. by rewrite !Nat.add_0_r.
Qed.

Lemma selected_coupled_of (ll : LinearLayer.t) (row : nat) :
  LinearLayer.four_russians_table_ ll
  = LinearLayer.precompute_four_russians (LinearLayer.matrix_ ll) →
  selected ll row = coupled (LinearLayer.matrix_ ll) row.
Proof.
  destruct ll as [m table]. cbn [LinearLayer.matrix_ LinearLayer.four_russians_table_].
  intros ->. apply selected_coupled.
Qed.

Lemma the_linear_layer_table :
  LinearLayer.four_russians_table_ the_linear_layer
  = LinearLayer.precompute_four_russians (LinearLayer.matrix_ the_linear_layer).
Proof. vm_compute. reflexivity. Qed.

(** X14: what [LinearLayer::apply] of the constructed layer computes:
    output [row] is the sum modulo [p] of [state[4 * group + i mod 4]]
    over the groups and the [i < 36] for which row [row] and row [i] of
    the matrix share an odd number of ones in the four columns of the
    group. *)
Theorem linear_layer_closed_form (state : list Z) (p : Z) :
  0 < p → length state = 36%nat →
  ∃ ll,
    LinearLayer.new = Ok ll
    ∧ LinearLayer.apply ll state p
      = Ok (map (λ row, sum_at state (coupled (LinearLayer.matrix_ ll) row)
                        mod p)
                (seq 0 36)).
Proof.
  intros Hp Hlen. exists the_linear_layer.
  split; [apply LinearLayer_new_ok |].
  rewrite LinearLayer_apply_ok, apply_rows_sum by done.
  apply (f_equal Ok), map_ext. intros row.
  by rewrite (selected_coupled_of _ _ the_linear_layer_table).
Qed.

Lemma linear_layer_closed_form_witness :
  ∃ ll,
    LinearLayer.new = Ok ll
    ∧ LinearLayer.apply ll e0 65579
      = Ok (map (λ row, sum_at e0 (coupled (LinearLayer.matrix_ ll) row)
                        mod 65579)
                (seq 0 36)).
Proof. apply (linear_layer_closed_form e0 65579); [lia | reflexivity]. Defined.

(** ** The XOF input *)

Lemma le32_inj (x y : Z) :
  0 ≤ x < 2 ^ 32 → 0 ≤ y < 2 ^ 32 → Spec.le32 x = Spec.le32 y → x = y.
Proof.
  intros Hx Hy. unfold Spec.le32. intros [= H0 H1 H2 H3].
  apply (f_equal Keccak.Z_of_byte) in H0, H1, H2, H3.
  rewrite !Z_of_byte_of_Z in H0, H1, H2, H3 by (apply Z.mod_pos_bound; lia).
  change (2 ^ 8) with 256 in *. change (2 ^ 16) with 65536 in *.
  change (2 ^ 24) with 16777216 in *. change (2 ^ 32) with 4294967296 in *.
  Z.to_euclidean_division_equations. lia.
Qed.

Lemma index_bytes_length (x : Z) :
  length (RoundKeyGenerator.index_bytes x) = 4%nat.
Proof. reflexivity. Qed.

(** X15: [generate_round_constant] depends on the nonce and the two
    indices only through the XOF input [nonce ‖ le32(j) ‖ le32(i)], and
    for 32-bit indices this input determines the nonce, [i] and [j]. *)
Theorem round_constant_input_injective (g g' : RoundKeyGenerator.t)
    (i j i' j' p : Z) :
  (round_constant_input g i j = round_constant_input g' i' j' →
   RoundKeyGenerator.generate_round_constant g i j p
   = RoundKeyGenerator.generate_round_constant g' i' j' p)
  ∧ (0 ≤ i < 2 ^ 32 → 0 ≤ j < 2 ^ 32 → 0 ≤ i' < 2 ^ 32 → 0 ≤ j' < 2 ^ 32 →
     round_constant_input g i j = round_constant_input g' i' j' →
     RoundKeyGenerator.nonce_ g = RoundKeyGenerator.nonce_ g'
     ∧ i = i' ∧ j = j').
Proof.
  split.
  - intros Heq. unfold RoundKeyGenerator.generate_round_constant.
    change (RoundKeyGenerator.nonce_ g ++ RoundKeyGenerator.index_bytes j
            ++ RoundKeyGenerator.index_bytes i)
      with (round_constant_input g i j).
    change (RoundKeyGenerator.nonce_ g' ++ RoundKeyGenerator.index_bytes j'
            ++ RoundKeyGenerator.index_bytes i')
      with (round_constant_input g' i' j').
    by rewrite Heq.
  - intros Hi Hj Hi' Hj' Heq. unfold round_constant_input in Heq.
    apply app_inj_2 in Heq as [HN Heq];
      [| by rewrite !length_app, !index_bytes_length].
    apply app_inj_2 in Heq as [Hjj Hii]; [| by rewrite !index_bytes_length].
    rewrite !index_bytes_le32 in Hjj, Hii.
    split; [done |]. split; by apply le32_inj.
Qed.

Lemma round_constant_input_injective_witness :
  RoundKeyGenerator.nonce_ (RoundKeyGenerator.new test_nonce 5)
  = RoundKeyGenerator.nonce_ (RoundKeyGenerator.new test_nonce 5)
  ∧ 1 = 1 ∧ 0 = 0.
Proof.
  apply (proj2 (round_constant_input_injective
                  (RoundKeyGenerator.new test_nonce 5)
                  (RoundKeyGenerator.new test_nonce 5) 1 0 1 0 65579));
    [lia | lia | lia | lia | reflexivity].
Defined.

(** ** Round keys *)

Lemma Forall_zip_with {A B C} (P : A → Prop) (Q : B → Prop) (R : C → Prop)
    (f : A → B → C) (u : list A) (v : list B) :
  (∀ x y, P x → Q y → R (f x y)) →
  Forall P u → Forall Q v → Forall R (zip_with f u v).
Proof.
  intros Hf Hu. revert v. induction Hu as [| x u Hx Hu IH]; intros v Hv.
  - constructor.
  - destruct Hv as [| y v Hy Hv]; cbn; constructor; auto.
Qed.

(** X16: for a prime [p] and a 36-element master key with no element
    divisible by [p], [generate_round_key] applied to a round constant of
    [generate_round_constant] returns 36 elements of [1, p): no round-key
    element is zero. *)
Theorem round_key_nonzero (g : RoundKeyGenerator.t) (K : list Z) (r j p : Z) :
  prime p → length K = 36%nat → Forall (λ k, k mod p ≠ 0) K →
  ∃ rk,
    RoundKeyGenerator.generate_round_key g K
      (RoundKeyGenerator.generate_round_constant g r j p) p = Ok rk
    ∧ length rk = 36%nat
    ∧ Forall (λ x, 0 < x < p) rk.
Proof.
  intros Hprime HK Hnz.
  pose proof (Z.prime_ge_2 p (proj2 (prime_alt p) Hprime)) as Hp2.
  exists (Spec.rk K (RoundKeyGenerator.generate_round_constant g r j p) p).
  split.
  { apply generate_round_key_ok;
      [lia | done | apply generate_round_constant_length]. }
  split; [apply rk_length; [done | apply generate_round_constant_length] |].
  rewrite generate_round_constant_spec by lia.
  unfold Spec.rk.
  eapply Forall_zip_with; [| exact Hnz | apply (rc_nonzero_range _ r j p); lia].
  intros k c Hk Hc. cbv beta in *.
  pose proof (Z.mod_pos_bound (k * c) p ltac:(lia)).
  assert ((k * c) mod p ≠ 0); [| lia].
  intros H0. apply Z.mod_divide in H0; [| lia].
  apply Z.divide_prime_mul in H0; [| by apply prime_alt].
  destruct H0 as [Hd | Hd].
  - apply Hk. apply Z.mod_divide; [lia | done].
  - destruct Hd as [t ->]. destruct (Z.le_gt_cases t 0); nia.
Qed.

Lemma round_key_nonzero_witness :
  ∃ rk,
    RoundKeyGenerator.generate_round_key (RoundKeyGenerator.new test_nonce 5)
      test_key
      (RoundKeyGenerator.generate_round_constant
         (RoundKeyGenerator.new test_nonce 5) 1 0 65579) 65579 = Ok rk
    ∧ length rk = 36%nat
    ∧ Forall (λ x, 0 < x < 65579) rk.
Proof.
  apply (round_key_nonzero (RoundKeyGenerator.new test_nonce 5) test_key
           1 0 65579); [apply prime_65579 | reflexivity |].
  repeat constructor; discriminate.
Defined.

(** X17: for the all-ones master key and a valid modulus the round key is
    the round constant itself. *)
Theorem round_key_all_ones (g : RoundKeyGenerator.t) (r j p : Z) :
  Spec.valid_modulus p →
  RoundKeyGenerator.generate_round_key g (repeat 1 36)
    (RoundKeyGenerator.generate_round_constant g r j p) p
  = Ok (RoundKeyGenerator.generate_round_constant g r j p).
Proof.
  intros [H3 H16]. apply round_key_of_ones;
    [lia | apply generate_round_constant_length |].
  rewrite generate_round_constant_spec by lia.
  eapply Forall_impl; [apply rc_nonzero_range; lia |].
  unfold Spec.field_element. intros c Hc. simpl in *. lia.
Qed.

Lemma round_key_all_ones_witness :
  RoundKeyGenerator.generate_round_key (RoundKeyGenerator.new test_nonce 5)
    (repeat 1 36)
    (RoundKeyGenerator.generate_round_constant
       (RoundKeyGenerator.new test_nonce 5) 1 0 65579) 65579
  = Ok (RoundKeyGenerator.generate_round_constant
          (RoundKeyGenerator.new test_nonce 5) 1 0 65579).
Proof.
  apply (round_key_all_ones (RoundKeyGenerator.new test_nonce 5) 1 0 65579).
  split; [reflexivity | lia].
Defined.




(** ** [init] again *)

(** X19: an accepted [init] overwrites what an earlier [init] on the same
    instance did, whether that one was accepted or rejected: the instance
    is as after this [init] alone, with the new master key, a round-key
    generator for the new nonce and the level of the instance, and [p],
    level and truncation unchanged. *)
Theorem init_overwrites (c : t) (K1 K2 : list Z) (N1 N2 : list byte)
    (g : sbox_static) :
  length K2 = 36%nat →
  ∃ c2,
    init K2 N2 (World c g) = (Ok tt, World c2 g)
    ∧ init K2 N2 (init K1 N1 (World c g)).2 = (Ok tt, World c2 g)
    ∧ master_key_ c2 = K2
    ∧ rk_gen_ c2 = RoundKeyGenerator.new N2 (level_value (level_ c))
    ∧ p_ c2 = p_ c ∧ level_ c2 = level_ c ∧ trunc_m_ c2 = trunc_m_ c.
Proof.
  intros HK2. eexists. unfold init. rewrite HK2.
  destruct (length K1 =? 36)%nat;
    cbn [negb Nat.eqb bind this set_this self snd sbox_layer_static throw
         p_ level_ trunc_m_ master_key_ sbox_ linear_layer_ rk_gen_];
    (split; [reflexivity |]); (split; [reflexivity |]);
    cbn [p_ level_ trunc_m_ master_key_ rk_gen_]; done.
Qed.

Lemma init_overwrites_witness :
  ∃ c2,
    init test_key test_nonce (World (constructed 65579 SEC80 12) None)
    = (Ok tt, World c2 None)
    ∧ init test_key test_nonce
        (init e0 [x00] (World (constructed 65579 SEC80 12) None)).2
      = (Ok tt, World c2 None)
    ∧ master_key_ c2 = test_key
    ∧ rk_gen_ c2
      = RoundKeyGenerator.new test_nonce
          (level_value (level_ (constructed 65579 SEC80 12)))
    ∧ p_ c2 = p_ (constructed 65579 SEC80 12)
    ∧ level_ c2 = level_ (constructed 65579 SEC80 12)
    ∧ trunc_m_ c2 = trunc_m_ (constructed 65579 SEC80 12).
Proof.
  apply (init_overwrites (constructed 65579 SEC80 12) e0 test_key [x00]
           test_nonce None).
  reflexivity.
Defined.

(** ** Keystream: prefixes, range, key residues *)

Section Keystream.
Variables (ll : LinearLayer.t) (p : Z) (L : SecurityLevel) (m : Z)
  (N : list byte).
Hypothesis p_pos : 0 < p.

Lemma keystream_prefix_spec (sp : Z) (K : list Z) (n1 n2 : Z) :
  0 ≤ n1 ≤ n2 →
  Spec.keystream ll sp p L m K N n1
  = take (length (Spec.keystream ll sp p L m K N n1))
         (Spec.keystream ll sp p L m K N n2).
Proof using Type.
  intros Hn. unfold Spec.keystream.
  replace n2 with (n1 + (n2 - n1)) at 1 by lia.
  rewrite seqZ_app, flat_map_app by lia.
  by rewrite take_app_length.
Qed.

Lemma keystream_range (sp : Z) (K : list Z) (n : Z) :
  Forall (Spec.field_element p) (Spec.keystream ll sp p L m K N n).
Proof using p_pos.
  unfold Spec.keystream. apply Forall_flat_map, List.Forall_forall.
  intros j _. unfold Spec.block. apply Forall_drop, apply_rows_range, p_pos.
Qed.

Lemma rk_residues (K K' rc : list Z) :
  Forall2 (λ a b, a mod p = b mod p) K K' → Spec.rk K rc p = Spec.rk K' rc p.
Proof using p_pos.
  intros HK. revert rc. unfold Spec.rk.
  induction HK as [| a b K K' Hab HK IH]; intros [| c rc]; try done.
  cbn [zip_with]. f_equal; [| apply IH].
  rewrite (Z.mul_mod a), (Z.mul_mod b), Hab by lia. done.
Qed.

Lemma keystream_residues (sp : Z) (K K' : list Z) (n : Z) :
  Forall2 (λ a b, a mod p = b mod p) K K' →
  Spec.keystream ll sp p L m K N n = Spec.keystream ll sp p L m K' N n.
Proof using p_pos.
  intros HK. unfold Spec.keystream. apply flat_map_pointwise. intros j _.
  unfold Spec.block. rewrite (rk_residues K K') by done.
  apply (f_equal (drop (Z.to_nat m))).
  apply (f_equal (λ st, LinearLayer.apply_rows ll st p)).
  apply fold_left_pointwise. intros state r.
  unfold Spec.round. by rewrite (rk_residues K K').
Qed.

End Keystream.

(** X20: on an initialised instance, and with the same static S-box, the
    keystream of [n1] blocks is the first [n1 * (36 - m)] elements of the
    keystream of [n2 ≥ n1] blocks. *)
Theorem keystream_prefix (p : Z) (L : SecurityLevel) (m : Z) (K : list Z)
    (N : list byte) (n1 n2 : Z) (g : sbox_static) :
  Spec.valid_modulus p → 0 ≤ m ≤ 36 → length K = 36%nat →
  0 ≤ n1 ≤ n2 → n2 < 2 ^ 32 → static_ok g →
  ∃ c0 c ks1 ks2 w1 w2,
    new p L m = Ok c0
    ∧ init K N (World c0 g) = (Ok tt, World c g)
    ∧ generate_keystream n1 (World c g) = (Ok ks1, w1)
    ∧ generate_keystream n2 (World c g) = (Ok ks2, w2)
    ∧ Z.of_nat (length ks1) = n1 * (36 - m)
    ∧ ks1 = take (length ks1) ks2.
Proof.
  intros Hv Hm HK Hn Hn2 Hg.
  destruct (valid_modulus_checks p Hv) as [Hp H16].
  exists (constructed p L m), (initialised p L m K N).
  do 4 eexists.
  split; [apply new_ok; [done | done | lia] |].
  split; [by apply init_ok |].
  split; [by apply generate_keystream_run |].
  split; [by apply generate_keystream_run |].
  split; [apply keystream_length; [done | lia | done | lia] |].
  by apply keystream_prefix_spec.
Qed.

Lemma keystream_prefix_witness :
  ∃ c0 c ks1 ks2 w1 w2,
    new 65579 SEC80 12 = Ok c0
    ∧ init test_key test_nonce (World c0 None) = (Ok tt, World c None)
    ∧ generate_keystream 1 (World c None) = (Ok ks1, w1)
    ∧ generate_keystream 2 (World c None) = (Ok ks2, w2)
    ∧ Z.of_nat (length ks1) = 1 * (36 - 12)
    ∧ ks1 = take (length ks1) ks2.
Proof.
  apply (keystream_prefix 65579 SEC80 12 test_key test_nonce 1 2 None);
    [split; [reflexivity | lia] | lia | reflexivity | lia | lia | exact I].
Defined.

(** X21: every element of the keystream of an initialised instance is in
    [0, p). *)
Theorem keystream_in_field (p : Z) (L : SecurityLevel) (m : Z) (K : list Z)
    (N : list byte) (n : Z) (g : sbox_static) :
  Spec.valid_modulus p → 0 ≤ m ≤ 36 → length K = 36%nat →
  0 ≤ n < 2 ^ 32 → static_ok g →
  ∃ c0 c ks w,
    new p L m = Ok c0
    ∧ init K N (World c0 g) = (Ok tt, World c g)
    ∧ generate_keystream n (World c g) = (Ok ks, w)
    ∧ Forall (Spec.field_element p) ks.
Proof.
  intros Hv Hm HK Hn Hg.
  destruct (valid_modulus_checks p Hv) as [Hp H16].
  exists (constructed p L m), (initialised p L m K N).
  do 2 eexists.
  split; [apply new_ok; [done | done | lia] |].
  split; [by apply init_ok |].
  split; [by apply generate_keystream_run |].
  apply keystream_range. lia.
Qed.

Lemma keystream_in_field_witness :
  ∃ c0 c ks w,
    new 65579 SEC80 12 = Ok c0
    ∧ init test_key test_nonce (World c0 None) = (Ok tt, World c None)
    ∧ generate_keystream 3 (World c None) = (Ok ks, w)
    ∧ Forall (Spec.field_element 65579) ks.
Proof.
  apply (keystream_in_field 65579 SEC80 12 test_key test_nonce 3 None);
    [split; [reflexivity | lia] | lia | reflexivity | lia | exact I].
Defined.

(** X22: the keystream depends on the master key only through the
    residues of its elements modulo [p]: two keys that agree modulo [p]
    element by element give the same keystream. *)
Theorem keystream_key_residues (p : Z) (L : SecurityLevel) (m : Z)
    (K K' : list Z) (N : list byte) (n : Z) (g : sbox_static) :
  Spec.valid_modulus p → 0 ≤ m ≤ 36 → length K = 36%nat →
  Forall2 (λ a b, a mod p = b mod p) K K' →
  0 ≤ n < 2 ^ 32 → static_ok g →
  ∃ c0 c c' ks w w',
    new p L m = Ok c0
    ∧ init K N (World c0 g) = (Ok tt, World c g)
    ∧ init K' N (World c0 g) = (Ok tt, World c' g)
    ∧ generate_keystream n (World c g) = (Ok ks, w)
    ∧ generate_keystream n (World c' g) = (Ok ks, w').
Proof.
  intros Hv Hm HK HKK Hn Hg.
  destruct (valid_modulus_checks p Hv) as [Hp H16].
  assert (HK' : length K' = 36%nat).
  { by rewrite <- (Forall2_length _ _ _ HKK). }
  exists (constructed p L m), (initialised p L m K N),
    (initialised p L m K' N).
  do 3 eexists.
  split; [apply new_ok; [done | done | lia] |].
  split; [by apply init_ok |].
  split; [by apply init_ok |].
  split; [by apply generate_keystream_run |].
  rewrite generate_keystream_run by done.
  rewrite <- (keystream_residues _ p L m N ltac:(lia) _ K K') by done.
  reflexivity.
Qed.

Lemma keystream_key_residues_witness :
  ∃ c0 c c' ks w w',
    new 65579 SEC80 12 = Ok c0
    ∧ init test_key test_nonce (World c0 None) = (Ok tt, World c None)
    ∧ init (repeat (-65578) 36) test_nonce (World c0 None)
      = (Ok tt, World c' None)
    ∧ generate_keystream 1 (World c None) = (Ok ks, w)
    ∧ generate_keystream 1 (World c' None) = (Ok ks, w').
Proof.
  apply (keystream_key_residues 65579 SEC80 12 test_key (repeat (-65578) 36)
           test_nonce 1 None);
    [split; [reflexivity | lia] | lia | reflexivity | | lia | exact I].
  repeat constructor.
Defined.
